(** * elerojs: frame codec and command dispatcher

    A shallow embedding of [src/protocol.js] (the frame codec), of the parts
    of [src/state.js] the dispatcher writes to, and of [src/stick.js] (the
    command dispatcher), followed by the properties of the specification
    that were checked against them.

    Conventions.
    - A JS number that the code uses as an integer is a [Z]; a [Buffer] is a
      [list Z] whose elements are bytes ([is_byte]); [Buffer.from] coerces
      every element modulo 256.
    - [buf !! i] is [buf[i]]: [None] stands for [undefined].
    - A function that may throw returns a [result]. *)

From Stdlib Require Import ZArith Lia List Bool.
From stdpp Require Import base option list sorting gmap strings.

Local Open Scope Z_scope.

(** ** Exceptions and results *)

Inductive error :=
| RangeError          (* new RangeError('channel must be 1..15') *)
| InvalidQueueItem    (* new Error('Invalid queue item') *)
| ResponseTimeout     (* new Error('Response timeout') *)
| WriteFailed.        (* the rejection value of serial.write *)

Inductive result (A : Type) :=
| Ok (a : A)
| Throw (e : error).
Arguments Ok {A} a.
Arguments Throw {A} e.

(** ** Buffers *)

Definition is_byte (b : Z) : Prop := 0 <= b < 256.
Definition is_byteb (b : Z) : bool := (0 <=? b) && (b <? 256).
Definition is_buffer (l : list Z) : Prop := Forall is_byte l.

(** [Buffer.from(array)]: every entry is truncated to eight bits. *)
Definition Buffer_from (l : list Z) : list Z := map (fun x => x mod 256) l.

(** [buf.subarray(start, end)] for [0 <= start]: the bytes at indices
    [start .. end-1], clamped to the buffer, empty when [end <= start].
    (Negative indices, which JS counts from the end, do not occur: every
    call site passes [0], [2], [total] or [total - 1] with [total >= 2].) *)
Definition subarray (buf : list Z) (start end_ : Z) : list Z :=
  take (Z.to_nat (end_ - start)) (drop (Z.to_nat start) buf).

(** [buf.subarray(start)] *)
Definition subarray_from (buf : list Z) (start : Z) : list Z :=
  drop (Z.to_nat start) buf.

(** [x] used as an operand of a bit operation: [undefined] becomes 0. *)
Definition toInt (x : option Z) : Z := default 0 x.

(** ** The frame codec, [src/protocol.js] *)

Module Protocol.

Definition HEADER : Z := 0xaa.

Definition CMD_EASY_CHECK : Z := 0x4a.
Definition CMD_EASY_INFO : Z := 0x4e.
Definition CMD_EASY_SEND : Z := 0x4c.

Definition RSP_EASY_CONFIRM : Z := 0x4b.
Definition RSP_EASY_ACK : Z := 0x4d.

Inductive semantic :=
| no_information | top_position | bottom_position | intermediate_position
| tilt_position | blocking | overheated | timeout | move_up_started
| move_down_started | moving_up | moving_down | stopped_in_undefined_position
| top_tilt_stop | bottom_intermediate_stop | switching_device_off
| switching_device_on | unknown.

(** [STATUS_DRIVE[statusByte] ?? 'unknown'] *)
Definition statusByteToDriveSemantic (statusByte : option Z) : semantic :=
  match statusByte with
  | Some 0x00 => no_information
  | Some 0x01 => top_position
  | Some 0x02 => bottom_position
  | Some 0x03 => intermediate_position
  | Some 0x04 => tilt_position
  | Some 0x05 => blocking
  | Some 0x06 => overheated
  | Some 0x07 => timeout
  | Some 0x08 => move_up_started
  | Some 0x09 => move_down_started
  | Some 0x0a => moving_up
  | Some 0x0b => moving_down
  | Some 0x0d => stopped_in_undefined_position
  | Some 0x0e => top_tilt_stop
  | Some 0x0f => bottom_intermediate_stop
  | Some 0x10 => switching_device_off
  | Some 0x11 => switching_device_on
  | _ => unknown
  end.

(** [for (i = 0; i < bytes.length; i++) sum += bytes[i];
     return (256 - (sum % 256)) % 256;]
    JS [%] is the truncating remainder, [Z.rem]. *)
Definition checksum (bytes : list Z) : Z :=
  let sum := fold_left Z.add bytes 0 in
  Z.rem (256 - Z.rem sum 256) 256.

Definition channelToBytes (channel : Z) : result (Z * Z) :=
  if (channel <? 1) || (channel >? 15) then Throw RangeError
  else if channel <=? 8 then Ok (0x00, Z.shiftl 1 (channel - 1))
  else Ok (Z.shiftl 1 (channel - 9), 0x00).

(** [while (n !== 1 && channel <= 15) { n = n >>> 1; channel++; }] *)
Fixpoint bytesToChannel_loop (fuel : nat) (n channel : Z) : Z * Z :=
  match fuel with
  | O => (n, channel)
  | S fuel' =>
      if negb (n =? 1) && (channel <=? 15)
      then bytesToChannel_loop fuel' (Z.shiftr n 1) (channel + 1)
      else (n, channel)
  end.

(** The loop starts at [channel = 1] and stops once [channel > 15]: fifteen
    iterations are all it can make (see [bytesToChannel_loop_exits]). *)
Definition bytesToChannel (high low : Z) : Z :=
  let word := Z.lor (Z.shiftl high 8) low in
  let '(_, channel) := bytesToChannel_loop 15 word 1 in
  if (channel <=? 15) && (Z.land word (word - 1) =? 0) then channel else 0.

(** [for (i = 0; i < 15; i++) if (word & (1 << i)) channels.push(i + 1);] *)
Definition bitmapToChannels (high low : Z) : list Z :=
  let word := Z.lor (Z.shiftl high 8) low in
  flat_map
    (fun i : nat =>
       if Z.land word (Z.shiftl 1 (Z.of_nat i)) =? 0 then []
       else [Z.of_nat i + 1])
    (seq 0 15).

Definition buildFrame (cmd : Z) (payloadBytes : list Z) : list Z :=
  let body := Buffer_from (cmd :: payloadBytes) in
  let length := Z.of_nat (length body) + 1 in
  let headerAndLength := Buffer_from [HEADER; length] in
  let all := headerAndLength ++ body in
  let csum := checksum all in
  all ++ Buffer_from [csum].

(** The object [{ cmd: body[0], payload: body.subarray(1) }]; [cmd] is
    [undefined] when the body is empty. *)
Record parsed := { cmd : option Z; payload : list Z }.

Definition parseFrame (buffer : list Z) : option parsed :=
  if (length buffer <? 3)%nat then None
  else
    match buffer !! 1%nat with
    | None => None (* not reached: the buffer has three bytes or more *)
    | Some len =>
        let total := 2 + len in
        if Z.of_nat (length buffer) <? total then None
        else
          let frame := subarray buffer 0 total in
          let body := subarray frame 2 (total - 1) in
          let receivedChecksum := frame !! Z.to_nat (total - 1) in
          let expectedChecksum := checksum (subarray frame 0 (total - 1)) in
          if decide (receivedChecksum = Some expectedChecksum)
          then Some {| cmd := body !! 0%nat; payload := subarray_from body 1 |}
          else None
    end.

Definition buildEasyCheck : list Z := buildFrame CMD_EASY_CHECK [].

Definition buildEasyInfo (channel : Z) : result (list Z) :=
  match channelToBytes channel with
  | Throw e => Throw e
  | Ok (high, low) => Ok (buildFrame CMD_EASY_INFO [high; low])
  end.

Definition buildEasySend (channel payloadByte : Z) : result (list Z) :=
  match channelToBytes channel with
  | Throw e => Throw e
  | Ok (high, low) => Ok (buildFrame CMD_EASY_SEND [high; low; payloadByte])
  end.

End Protocol.

Import Protocol.

(** ** The status store, [src/state.js]

    Only what the dispatcher pushes into it. The subscriber callbacks that
    [setChannelStatus] invokes belong to the listeners and are left out. *)

Module State.

Record status := { statusByte : option Z; sem : semantic }.

Record store := {
  learnedChannels : list Z;
  channelStatus : gmap Z status
}.

Definition empty : store :=
  {| learnedChannels := []; channelStatus := ∅ |}.

(** [learnedChannels = [...channels].sort((a, b) => a - b)] *)
Definition setLearnedChannels (channels : list Z) (st : store) : store :=
  {| learnedChannels := merge_sort Z.le channels;
     channelStatus := channelStatus st |}.

Definition setChannelStatus (channel : Z) (statusByte : option Z)
    (st : store) : store :=
  {| learnedChannels := learnedChannels st;
     channelStatus :=
       <[channel := {| statusByte := statusByte;
                       sem := statusByteToDriveSemantic statusByte |}]>
         (channelStatus st) |}.

End State.

(** ** The command dispatcher, [src/stick.js]

    The dispatcher between [start()] and [stop()]: [enqueue] and its three
    callers, [processNext] with the callbacks it registers, and
    [onSerialData]. [setCommandDelayMs] only changes a delay, and delays are
    not modelled; [stop()] and [start()] are not modelled. *)

Module Stick.

Inductive req_type := easy_check | easy_info | easy_send.

(** A queue entry [{ type, channel?, payload?, resolve, reject }]. [id]
    stands for the identity of the object (and of its promise): [enqueue]
    creates a fresh object on every call, and [queue[0] === item] compares
    identities. *)
Record item := {
  id : nat;
  type : req_type;
  channel : option Z;
  payload : option Z
}.

(** What the dispatcher does to the outside, in program order: the calls of
    [serial.write], [item.resolve] and [item.reject]. *)
Inductive effect :=
| SerialWrite (it : item) (buffer : list Z)
| Resolve (it : item) (value : option (list Z))
| Reject (it : item) (e : error).

(** The module-level variables of [stick.js], the store of [state.js], and
    the callbacks the module has handed to the event loop and that have not
    run yet. Time is not modelled: a pending callback may run at any moment,
    whatever its delay ([commandDelayMs], [RESPONSE_TIMEOUT_MS]). *)
Record state := {
  queue : list item;
  readBuffer : list Z;
  responseTimer : option nat;
  processing : bool;
  store : State.store;
  (* pending [setTimeout(() => processNext(), ..)] callbacks *)
  processNextTimers : nat;
  (* pending response-timeout callbacks: timer handle and the [item] of
     the closure *)
  responseTimers : list (nat * item);
  (* [serial.write] promises not yet settled, with the [item] of their
     [then] callbacks *)
  pendingWrites : list item;
  (* next fresh object identity / timer handle *)
  fresh : nat;
  log : list effect
}.

Definition init : state :=
  {| queue := []; readBuffer := []; responseTimer := None;
     processing := false; store := State.empty; processNextTimers := 0;
     responseTimers := []; pendingWrites := []; fresh := 0; log := [] |}.

Definition set_queue (q : list item) (s : state) : state :=
  {| queue := q; readBuffer := readBuffer s;
     responseTimer := responseTimer s; processing := processing s;
     store := store s; processNextTimers := processNextTimers s;
     responseTimers := responseTimers s; pendingWrites := pendingWrites s;
     fresh := fresh s; log := log s |}.

Definition set_readBuffer (b : list Z) (s : state) : state :=
  {| queue := queue s; readBuffer := b;
     responseTimer := responseTimer s; processing := processing s;
     store := store s; processNextTimers := processNextTimers s;
     responseTimers := responseTimers s; pendingWrites := pendingWrites s;
     fresh := fresh s; log := log s |}.

Definition set_processing (p : bool) (s : state) : state :=
  {| queue := queue s; readBuffer := readBuffer s;
     responseTimer := responseTimer s; processing := p;
     store := store s; processNextTimers := processNextTimers s;
     responseTimers := responseTimers s; pendingWrites := pendingWrites s;
     fresh := fresh s; log := log s |}.

Definition set_store (st : State.store) (s : state) : state :=
  {| queue := queue s; readBuffer := readBuffer s;
     responseTimer := responseTimer s; processing := processing s;
     store := st; processNextTimers := processNextTimers s;
     responseTimers := responseTimers s; pendingWrites := pendingWrites s;
     fresh := fresh s; log := log s |}.

Definition set_processNextTimers (n : nat) (s : state) : state :=
  {| queue := queue s; readBuffer := readBuffer s;
     responseTimer := responseTimer s; processing := processing s;
     store := store s; processNextTimers := n;
     responseTimers := responseTimers s; pendingWrites := pendingWrites s;
     fresh := fresh s; log := log s |}.

Definition set_pendingWrites (w : list item) (s : state) : state :=
  {| queue := queue s; readBuffer := readBuffer s;
     responseTimer := responseTimer s; processing := processing s;
     store := store s; processNextTimers := processNextTimers s;
     responseTimers := responseTimers s; pendingWrites := w;
     fresh := fresh s; log := log s |}.

(** Both the variable [responseTimer] and the event loop's timer table. *)
Definition set_timers (v : option nat) (t : list (nat * item)) (s : state)
    : state :=
  {| queue := queue s; readBuffer := readBuffer s;
     responseTimer := v; processing := processing s;
     store := store s; processNextTimers := processNextTimers s;
     responseTimers := t; pendingWrites := pendingWrites s;
     fresh := fresh s; log := log s |}.

Definition set_fresh (n : nat) (s : state) : state :=
  {| queue := queue s; readBuffer := readBuffer s;
     responseTimer := responseTimer s; processing := processing s;
     store := store s; processNextTimers := processNextTimers s;
     responseTimers := responseTimers s; pendingWrites := pendingWrites s;
     fresh := n; log := log s |}.

Definition emit (e : effect) (s : state) : state :=
  {| queue := queue s; readBuffer := readBuffer s;
     responseTimer := responseTimer s; processing := processing s;
     store := store s; processNextTimers := processNextTimers s;
     responseTimers := responseTimers s; pendingWrites := pendingWrites s;
     fresh := fresh s; log := log s ++ [e] |}.

(** [setTimeout(() => processNext(), ms)] *)
Definition scheduleProcessNext (s : state) : state :=
  set_processNextTimers (S (processNextTimers s)) s.

(** [clearTimeout(h)]: the callback of handle [h], if still pending, is
    dropped. *)
Definition clearTimeout (h : nat) (t : list (nat * item)) : list (nat * item) :=
  filter (fun e => e.1 <> h) t.

Definition clearResponseTimer (s : state) : state :=
  match responseTimer s with
  | Some h => set_timers None (clearTimeout h (responseTimers s)) s
  | None => s
  end.

(** [queue.shift()] *)
Definition shift (s : state) : state := set_queue (tail (queue s)) s.

(** The body of the loop of [onSerialData] once [parseFrame] has
    succeeded. *)
Definition handleFrame (parsed : Protocol.parsed) (s : state) : state :=
  if decide (cmd parsed = Some RSP_EASY_CONFIRM) then
    let high := Protocol.payload parsed !! 0%nat in
    let low := Protocol.payload parsed !! 1%nat in
    let channels := bitmapToChannels (toInt high) (toInt low) in
    let s := set_store (State.setLearnedChannels channels (store s)) s in
    let s := clearResponseTimer s in
    match queue s with
    | item :: _ =>
        match type item with
        | easy_check =>
            let s := shift s in
            let s := emit (Resolve item (Some channels)) s in
            let s := set_processing false s in
            scheduleProcessNext s
        | _ => s
        end
    | [] => s
    end
  else if decide (cmd parsed = Some RSP_EASY_ACK) then
    let high := Protocol.payload parsed !! 0%nat in
    let low := Protocol.payload parsed !! 1%nat in
    let channel := bytesToChannel (toInt high) (toInt low) in
    let statusByte := Protocol.payload parsed !! 2%nat in
    let s :=
      if (1 <=? channel) && (channel <=? 15)
      then set_store (State.setChannelStatus channel statusByte (store s)) s
      else s in
    let s := clearResponseTimer s in
    match queue s with
    | item :: _ =>
        match type item with
        | easy_info | easy_send =>
            let s := shift s in
            let s := emit (Resolve item None) s in
            let s := set_processing false s in
            scheduleProcessNext s
        | easy_check => s
        end
    | [] => s
    end
  else s.

(** [while (readBuffer.length >= 2) { .. }]. Every iteration that does not
    leave the loop removes [2 + len >= 2] bytes from [readBuffer], so the
    length of the buffer bounds the number of iterations
    (see [onSerialData_loop_fuel]). *)
Fixpoint onSerialData_loop (fuel : nat) (s : state) : state :=
  match fuel with
  | O => s
  | S fuel' =>
      if (length (readBuffer s) <? 2)%nat then s
      else
        match readBuffer s !! 1%nat with
        | None => s
        | Some len =>
            let total := 2 + len in
            if Z.of_nat (length (readBuffer s)) <? total then s
            else
              let frame := subarray (readBuffer s) 0 total in
              let s := set_readBuffer (subarray_from (readBuffer s) total) s in
              match parseFrame frame with
              | None => onSerialData_loop fuel' s
              | Some parsed => onSerialData_loop fuel' (handleFrame parsed s)
              end
        end
  end.

Definition onSerialData (data : list Z) (s : state) : state :=
  let s := set_readBuffer (readBuffer s ++ data) s in
  onSerialData_loop (length (readBuffer s)) s.

(** The [try] block of [processNext]: [None] is the final [else] branch
    ('Invalid queue item'), [Some (Throw e)] an exception of the codec. *)
Definition buildRequest (it : item) : option (result (list Z)) :=
  match type it, channel it, payload it with
  | easy_check, _, _ => Some (Ok buildEasyCheck)
  | easy_info, Some c, _ => Some (buildEasyInfo c)
  | easy_send, Some c, Some p => Some (buildEasySend c p)
  | _, _, _ => None
  end.

(** [queue.shift(); item.reject(e); processing = false;
     setTimeout(() => processNext(), commandDelayMs);] *)
Definition failHead (it : item) (e : error) (s : state) : state :=
  let s := shift s in
  let s := emit (Reject it e) s in
  let s := set_processing false s in
  scheduleProcessNext s.

Definition processNext (s : state) : state :=
  if processing s then s
  else
    match queue s with
    | [] => s
    | item :: _ =>
        let s := set_processing true s in
        match buildRequest item with
        | None => failHead item InvalidQueueItem s
        | Some (Throw e) => failHead item e s
        | Some (Ok buffer) =>
            (* serial.write(buffer).then(onWritten, onWriteFailed) *)
            let s := emit (SerialWrite item buffer) s in
            set_pendingWrites (pendingWrites s ++ [item]) s
        end
    end.

(** The first callback of [serial.write(buffer).then]: the response timer
    is armed. *)
Definition onWritten (it : item) (s : state) : state :=
  let h := fresh s in
  let s := set_fresh (S h) s in
  set_timers (Some h) (responseTimers s ++ [(h, it)]) s.

(** The second callback of [serial.write(buffer).then]. *)
Definition onWriteFailed (it : item) (s : state) : state :=
  failHead it WriteFailed s.

(** The callback of the response timer. *)
Definition onResponseTimeout (it : item) (s : state) : state :=
  let s := set_timers None (responseTimers s) s in
  let s :=
    match queue s with
    | head :: _ =>
        if decide (id head = id it)
        then emit (Reject it ResponseTimeout) (shift s)
        else s
    | [] => s
    end in
  let s := set_processing false s in
  scheduleProcessNext s.

(** [enqueue(item)]: the promise executor runs at once. *)
Definition enqueue (t : req_type) (c p : option Z) (s : state) : state :=
  let it := {| id := fresh s; type := t; channel := c; payload := p |} in
  let s := set_fresh (S (fresh s)) s in
  let s := set_queue (queue s ++ [it]) s in
  if decide (length (queue s) = 1%nat) then
    if processing s then s else scheduleProcessNext s
  else s.

Definition easyCheck : state -> state := enqueue easy_check None None.
Definition easyInfo (channel : option Z) : state -> state :=
  enqueue easy_info channel None.
Definition easySend (channel payloadByte : option Z) : state -> state :=
  enqueue easy_send channel payloadByte.

(** *** The event loop

    What can happen to a started dispatcher: a caller enqueues a request, a
    pending timer fires, a pending write settles, the transport delivers
    bytes. An event that is not possible in a state has no successor. *)
Inductive event :=
| Enqueue (t : req_type) (c p : option Z)
| TimerProcessNext
| WriteDone (k : nat) (ok : bool)   (* the k-th pending write settles *)
| TimerResponse (h : nat)           (* the response timer of handle h fires *)
| SerialData (data : list Z).

Definition lookupTimer (h : nat) (t : list (nat * item)) : option item :=
  match list_find (fun e => e.1 = h) t with
  | Some (_, (_, it)) => Some it
  | None => None
  end.

Definition step (s : state) (e : event) : option state :=
  match e with
  | Enqueue t c p => Some (enqueue t c p s)
  | TimerProcessNext =>
      match processNextTimers s with
      | O => None
      | S n => Some (processNext (set_processNextTimers n s))
      end
  | WriteDone k ok =>
      match pendingWrites s !! k with
      | None => None
      | Some it =>
          let s := set_pendingWrites (delete k (pendingWrites s)) s in
          Some (if ok then onWritten it s else onWriteFailed it s)
      end
  | TimerResponse h =>
      match lookupTimer h (responseTimers s) with
      | None => None
      | Some it =>
          let s := set_timers (responseTimer s)
                     (clearTimeout h (responseTimers s)) s in
          Some (onResponseTimeout it s)
      end
  | SerialData data =>
      if forallb is_byteb data then Some (onSerialData data s) else None
  end.

Fixpoint run (s : state) (tr : list event) : option state :=
  match tr with
  | [] => Some s
  | e :: tr' =>
      match step s e with
      | None => None
      | Some s' => run s' tr'
      end
  end.

(** The promises that have settled, in the order they settled: a promise
    settles at the first call of its [resolve] or [reject], later calls do
    nothing. *)
Fixpoint settleOrder (seen : list nat) (l : list effect) : list nat :=
  match l with
  | [] => []
  | SerialWrite _ _ :: l' => settleOrder seen l'
  | Resolve it _ :: l' | Reject it _ :: l' =>
      if decide (id it ∈ seen) then settleOrder seen l'
      else id it :: settleOrder (id it :: seen) l'
  end.

Definition isWrite (e : effect) : bool :=
  match e with SerialWrite _ _ => true | _ => false end.

Definition writes (l : list effect) : list effect := List.filter isWrite l.

End Stick.

Import Stick.

(** ** The tables of [src/protocol.js] *)

Module Tables.

Definition PAYLOAD_TOP : Z := 0x20.
Definition PAYLOAD_BOTTOM : Z := 0x40.
Definition PAYLOAD_STOP : Z := 0x10.
Definition PAYLOAD_INTERMEDIATE : Z := 0x44.
Definition PAYLOAD_TILT : Z := 0x24.

(** [ACTION_TO_PAYLOAD[action]]: [None] is [undefined]. *)
Definition ACTION_TO_PAYLOAD (action : string) : option Z :=
  if decide (action = "top"%string) then Some PAYLOAD_TOP
  else if decide (action = "bottom"%string) then Some PAYLOAD_BOTTOM
  else if decide (action = "stop"%string) then Some PAYLOAD_STOP
  else if decide (action = "intermediate"%string) then Some PAYLOAD_INTERMEDIATE
  else if decide (action = "tilt"%string) then Some PAYLOAD_TILT
  else None.

Inductive switch_semantic :=
| sw_no_information | sw_off | sw_on | sw_dim1 | sw_dim2 | sw_unknown.

(** [STATUS_SWITCH[statusByte] ?? 'unknown'] *)
Definition statusByteToSwitchSemantic (statusByte : option Z)
    : switch_semantic :=
  match statusByte with
  | Some 0x00 => sw_no_information
  | Some 0x01 => sw_off
  | Some 0x02 => sw_on
  | Some 0x03 => sw_dim1
  | Some 0x04 => sw_dim2
  | Some 0x10 => sw_off
  | Some 0x11 => sw_on
  | _ => sw_unknown
  end.

End Tables.

(** ** The readers of [src/state.js] *)

Module StateRead.

(** [return [...learnedChannels]] *)
Definition getLearnedChannels (st : State.store) : list Z :=
  State.learnedChannels st.

(** [channelStatus.get(channel)] *)
Definition getChannelStatus (channel : Z) (st : State.store)
    : option State.status :=
  State.channelStatus st !! channel.

(** [for (const ch of learnedChannels) { const s = channelStatus.get(ch);
     if (s) status[ch] = s; }  return { channels, status }] *)
Definition getFullState (st : State.store) : list Z * gmap Z State.status :=
  (getLearnedChannels st,
   fold_left
     (fun status ch =>
        match State.channelStatus st !! ch with
        | Some s => <[ch := s]> status
        | None => status
        end)
     (State.learnedChannels st) ∅).

End StateRead.

(** ** Starting and stopping: [start] and [stop] of [src/stick.js] with
    the listener table of [src/serial.js]

    [serial.js] keeps one variable, [port]: [null] or the port object.
    The only thing the dispatcher needs of the object is the number of
    times [onSerialData] has been registered on it for ['data']: an event
    emitter calls a listener once for every registration. *)

Module Lifecycle.

Record world := {
  disp : state;
  (* [None]: [port] is null; [Some n]: a port with [n] registrations *)
  port : option nat
}.

(** [serial.onData(callback)]: [None] is the exception 'Serial port not
    open'. *)
Definition onData (p : option nat) : option (option nat) :=
  match p with
  | None => None
  | Some n => Some (Some (S n))
  end.

(** [serial.removeDataListeners()] *)
Definition removeDataListeners (p : option nat) : option nat :=
  match p with
  | None => None
  | Some _ => Some 0%nat
  end.

(** [start()]: [None] when [serial.onData] throws. *)
Definition start (w : world) : option world :=
  match onData (port w) with
  | None => None
  | Some p => Some {| disp := disp w; port := p |}
  end.

(** The part of [stop()] that works on the variables of [stick.js]. The
    items of the queue are rejected one by one with
    [new Error('Stick stopped')]; they are returned, in that order, beside
    the new state. *)
Definition stopDispatcher (s : state) : state * list item :=
  let s := clearResponseTimer s in
  let s := set_readBuffer [] s in
  let s := set_processing false s in
  (set_queue [] s, queue s).

Definition stop (w : world) : world * list item :=
  let p := removeDataListeners (port w) in
  let '(s, rejected) := stopDispatcher (disp w) in
  ({| disp := s; port := p |}, rejected).

(** The port emits ['data']: every registration of [onSerialData] is
    called with the chunk. *)
Definition deliver (data : list Z) (w : world) : world :=
  match port w with
  | None => w
  | Some n => {| disp := Nat.iter n (onSerialData data) (disp w);
                 port := port w |}
  end.

End Lifecycle.

(** ** What the REST handlers of [src/api.js] ask of the dispatcher

    [parseInt] is the JS builtin ([None] for [NaN]); it is a parameter.
    A handler is modelled up to the point where it answers or calls the
    dispatcher. *)

Module Api.

Definition CHANNEL_MIN : Z := 1.
Definition CHANNEL_MAX : Z := 15.
Definition VALID_ACTIONS : list string :=
  ["top"; "bottom"; "stop"; "intermediate"; "tilt"]%string.

Inductive reply :=
| Status (code : nat)              (* res.status(code).json({ error }) *)
| Cached (st : State.status)       (* res.json({ channel, ...status }) *)
| CallEasyInfo (id : Z)            (* await stickRef.easyInfo(id) *)
| CallEasySend (id : Z) (payload : option Z).

Section Handlers.

Variable parseInt : string -> option Z.

Definition parseChannelId (id : string) : option Z :=
  match parseInt id with
  | None => None
  | Some n => if (n <? CHANNEL_MIN) || (n >? CHANNEL_MAX) then None else Some n
  end.

(** [learned.includes(id)] *)
Definition includes (id : Z) (l : list Z) : bool := bool_decide (id ∈ l).

(** GET /channels/:id and GET /channels/:id/status *)
Definition getChannelStatus (idParam : string) (st : State.store) : reply :=
  match parseChannelId idParam with
  | None => Status 400
  | Some id =>
      if includes id (StateRead.getLearnedChannels st) then
        match StateRead.getChannelStatus id st with
        | Some status => Cached status
        | None => CallEasyInfo id
        end
      else Status 404
  end.

(** POST /channels/:id/command; [action] is [req.body?.action] when it is a
    string. *)
Definition postCommand (idParam : string) (action : option string)
    (st : State.store) : reply :=
  match parseChannelId idParam with
  | None => Status 400
  | Some id =>
      match action with
      | None => Status 400
      | Some a =>
          if bool_decide (a ∈ VALID_ACTIONS) then
            if includes id (StateRead.getLearnedChannels st)
            then CallEasySend id (Tables.ACTION_TO_PAYLOAD a)
            else Status 404
          else Status 400
      end
  end.

End Handlers.

End Api.

(** ** The pure helpers of [src/scheduler.js]

    A JS string is the list of its UTF-16 code units; a [Date] is its time
    value. *)

Module Scheduler.

(** White space and line terminators, what [String.prototype.trim]
    removes. *)
Definition isWhiteSpace (u : Z) : bool :=
  bool_decide (u ∈ [0x09; 0x0A; 0x0B; 0x0C; 0x0D; 0x20; 0xA0; 0x1680;
                    0x2028; 0x2029; 0x202F; 0x205F; 0x3000; 0xFEFF])
  || ((0x2000 <=? u) && (u <=? 0x200A)).

Fixpoint trimStart (s : list Z) : list Z :=
  match s with
  | u :: s' => if isWhiteSpace u then trimStart s' else s
  | [] => []
  end.

Definition trim (s : list Z) : list Z :=
  reverse (trimStart (reverse (trimStart s))).

(** [\d] *)
Definition isDigit (u : Z) : bool := (48 <=? u) && (u <=? 57).

(** [parseInt] of a string of one or two digits *)
Definition digits1 (a : Z) : Z := a - 48.
Definition digits2 (a b : Z) : Z := (a - 48) * 10 + (b - 48).

(** [parseTime(hhmm)]; [None] as argument is a value that is not a string,
    [None] as result is [null]. The pattern is
    [/^(\d{1,2}):(\d{2})$/]. *)
Definition parseTime (hhmm : option (list Z)) : option Z :=
  match hhmm with
  | None => None
  | Some s =>
      let m :=
        match trim s with
        | [h1; c; m1; m2] =>
            if isDigit h1 && (c =? 58) && isDigit m1 && isDigit m2
            then Some (digits1 h1, digits2 m1 m2) else None
        | [h1; h2; c; m1; m2] =>
            if isDigit h1 && isDigit h2 && (c =? 58) && isDigit m1
               && isDigit m2
            then Some (digits2 h1 h2, digits2 m1 m2) else None
        | _ => None
        end in
      match m with
      | None => None
      | Some (h, min) =>
          if (h <? 0) || (h >? 23) || (min <? 0) || (min >? 59) then None
          else Some (h * 60 + min)
      end
  end.

Definition clamp (target minDate maxDate : Z) (hasMin hasMax : bool) : Z :=
  if hasMin && (target <? minDate) then minDate
  else if hasMax && (target >? maxDate) then maxDate
  else target.

End Scheduler.

(** * Vocabulary of the statements *)

(** The running sum of the loop of [checksum]. *)
Definition sumZ (l : list Z) : Z := fold_left Z.add l 0.

(** A frame written out: any first byte, the length field, the command,
    the payload and the checksum of all that. *)
Definition frameOf (h c : Z) (p : list Z) : list Z :=
  let len := Z.of_nat (length p) + 2 in
  [h; len] ++ c :: p ++ [checksum ([h; len] ++ c :: p)].

(** One turn of the loop, as a function: [None] when the loop is left. *)
Definition nextFrame (s : state) : option state :=
  if (length (readBuffer s) <? 2)%nat then None
  else
    match readBuffer s !! 1%nat with
    | None => None
    | Some len =>
        let total := 2 + len in
        if Z.of_nat (length (readBuffer s)) <? total then None
        else
          let frame := subarray (readBuffer s) 0 total in
          let s := set_readBuffer (subarray_from (readBuffer s) total) s in
          match parseFrame frame with
          | None => Some s
          | Some parsed => Some (handleFrame parsed s)
          end
    end.

(** A request as the data model has it: [check], [info(channel)] or
    [send(channel, payloadByte)] with a channel in 1..15. *)
Definition validRequest (t : req_type) (c p : option Z) : Prop :=
  match t, c, p with
  | easy_check, _, _ => True
  | easy_info, Some c, _ => 1 <= c <= 15
  | easy_send, Some c, Some _ => 1 <= c <= 15
  | _, _, _ => False
  end.


Definition notData (e : event) : Prop :=
  match e with SerialData _ => False | _ => True end.

(** [it] is settled in [l] by a response, by the response timeout or by
    the failure of its write. *)
Definition settledIn (it : item) (l : list effect) : Prop :=
  (exists v, In (Resolve it v) l)
  \/ In (Reject it ResponseTimeout) l
  \/ In (Reject it WriteFailed) l.

(** A monitor that reads the log from its start: it waits for the first
    write, then for the settlement of the request written, and goes to
    [Bad] when another write comes first. *)
Inductive monitor := NoWrite | Pending (a : item) | Done | Bad.

#[local] Instance error_eq_dec : EqDecision error.
Proof. solve_decision. Defined.
#[local] Instance req_type_eq_dec : EqDecision req_type.
Proof. solve_decision. Defined.
#[local] Instance item_eq_dec : EqDecision item.
Proof. solve_decision. Defined.

Definition settles (a : item) (e : effect) : bool :=
  match e with
  | Resolve it _ => bool_decide (it = a)
  | Reject it err =>
      bool_decide (it = a)
      && (bool_decide (err = ResponseTimeout) || bool_decide (err = WriteFailed))
  | SerialWrite _ _ => false
  end.

Definition watch (m : monitor) (e : effect) : monitor :=
  match m with
  | NoWrite => match e with SerialWrite a _ => Pending a | _ => NoWrite end
  | Pending a =>
      if isWrite e then Bad else if settles a e then Done else Pending a
  | Done => Done
  | Bad => Bad
  end.

Definition observe (l : list effect) : monitor := fold_left watch l NoWrite.

Arguments observe : simpl never.
Arguments clearTimeout : simpl never.

(** What the state of the dispatcher looks like in each state of the
    monitor. *)
Definition inFlight (a : item) (s : state) : Prop :=
  processing s = true
  /\ head (queue s) = Some a
  /\ Forall (fun x => x = a) (pendingWrites s)
  /\ Forall (fun e => e.2 = a) (responseTimers s).

Definition firstWriteInv (s : state) : Prop :=
  match observe (log s) with
  | NoWrite => responseTimers s = [] /\ pendingWrites s = []
  | Pending a => inFlight a s
  | Done => True
  | Bad => False
  end.

Definition validItem (it : item) : Prop :=
  validRequest (type it) (channel it) (payload it).




(** [it] is what [easyInfo(c)] or [easySend(c, payloadByte)] enqueues. *)
Definition requestFor (c : Z) (it : item) : Prop :=
  (type it = easy_info /\ channel it = Some c)
  \/ (type it = easy_send /\ channel it = Some c /\ is_Some (payload it)).

(** An [easy_ack] for channel 1 with status byte 1, the example of the
    protocol description, and one for channel 3. *)
Definition ackFrame : list Z := [0xAA; 0x05; 0x4D; 0x00; 0x01; 0x01; 0x02].
Definition ackFrame3 : list Z := [0xAA; 0x05; 0x4D; 0x00; 0x04; 0x01; 0xFF].

(** An [easy_check] is enqueued, written, and its response timer armed. *)
Definition checkInFlight : list event :=
  [Enqueue easy_check None None; TimerProcessNext; WriteDone 0 true].

(** Three requests A, B, C are enqueued. An [easy_ack] is delivered before
    the write of A has completed and resolves A; B is written; the write of
    A then fails; C is written and an [easy_ack] resolves it; the write of
    B fails. *)
Definition lateWriteFailure : list event :=
  [Enqueue easy_info (Some 1) None; Enqueue easy_info (Some 2) None;
   Enqueue easy_info (Some 3) None;
   TimerProcessNext; SerialData ackFrame;
   TimerProcessNext; WriteDone 0 false;
   TimerProcessNext; SerialData ackFrame3;
   WriteDone 0 false].

(** Two requests A, B are enqueued and A is written. An [easy_ack] is
    delivered before the write of A has completed and resolves A; B is
    written. The write of A then completes, which arms a response timer for
    A, and the write of B completes. The timer of A fires: A is not the
    head of the queue any more, and [processNext] is scheduled and runs. *)
Definition staleTimer : list event :=
  [Enqueue easy_info (Some 1) None; Enqueue easy_info (Some 2) None;
   TimerProcessNext; SerialData ackFrame;
   TimerProcessNext; WriteDone 0 true; WriteDone 0 true;
   TimerResponse 2; TimerProcessNext].

(** A dispatcher that waits for a response with nothing left that could
    end the wait: no timer, no write, no [processNext] pending. *)
Definition waitingForever (s : state) : Prop :=
  processing s = true /\ queue s <> [] /\ pendingWrites s = []
  /\ responseTimers s = [] /\ processNextTimers s = 0%nat.

(** The identities that [resolve] or [reject] was called for, call by
    call. Identities are handed out by [enqueue] in increasing order. *)
Definition settledId (e : effect) : list nat :=
  match e with
  | SerialWrite _ _ => []
  | Resolve it _ | Reject it _ => [id it]
  end.

Definition settledIds (l : list effect) : list nat := flat_map settledId l.

(** In the run [tr] from [s], every write that fails is reported while its
    request is still at the head of the queue. *)
Fixpoint timelyFailures (s : state) (tr : list event) : Prop :=
  match tr with
  | [] => True
  | e :: tr' =>
      match e with
      | WriteDone k false => pendingWrites s !! k = head (queue s)
      | _ => True
      end
      /\ match step s e with
         | Some s' => timelyFailures s' tr'
         | None => True
         end
  end.

Definition fifoInv (s : state) : Prop :=
  StronglySorted lt (settledIds (log s) ++ map id (queue s))
  /\ Forall (fun i => (i < fresh s)%nat) (settledIds (log s) ++ map id (queue s)).

(** A monitor for the whole log: [Busy a] from the write of [a] to its
    settlement, [Clash] when a write comes while it is [Busy]. *)
Inductive flight := Free | Busy (a : item) | Clash.

Definition watchAll (m : flight) (e : effect) : flight :=
  match m with
  | Free => match e with SerialWrite a _ => Busy a | _ => Free end
  | Busy a =>
      if isWrite e then Clash else if settles a e then Free else Busy a
  | Clash => Clash
  end.

Definition observeAll (l : list effect) : flight := fold_left watchAll l Free.

Arguments observeAll : simpl never.

(** The timers that [clearResponseTimer] leaves. *)
Definition clearedTimers (s : state) : list (nat * item) :=
  match responseTimer s with
  | Some h => clearTimeout h (responseTimers s)
  | None => responseTimers s
  end.







Definition timeoutRun : list event :=
  [Enqueue easy_check None None; Enqueue easy_info (Some 1) None;
   TimerProcessNext; WriteDone 0 true; TimerResponse 2; TimerProcessNext].

(** Three requests; the write of the first fails while it heads the queue,
    the second is resolved by an [easy_ack], the third times out. *)
Definition timelyRun : list event :=
  [Enqueue easy_check None None; Enqueue easy_info (Some 1) None;
   Enqueue easy_send (Some 2) (Some 0x20);
   TimerProcessNext; WriteDone 0 false;
   TimerProcessNext; WriteDone 0 true; SerialData ackFrame;
   TimerProcessNext; WriteDone 0 true; TimerResponse 4].


(** The bytes from 0 to 255. *)
Definition allBytes : list Z := map Z.of_nat (seq 0 256).

(** The decoded channel, when it is not 0, encodes back to the bytes. *)
Definition decodesExactly (high low : Z) : bool :=
  let c := bytesToChannel high low in
  (c =? 0)
  || ((1 <=? c) && (c <=? 15)
      && match channelToBytes c with
         | Ok (h, l) => (h =? high) && (l =? low)
         | Throw _ => false
         end).

(** The body of the loop of [bitmapToChannels]. *)
Definition channelOfBit (w : Z) (i : nat) : list Z :=
  if Z.land w (Z.shiftl 1 (Z.of_nat i)) =? 0 then [] else [Z.of_nat i + 1].

(** The read buffer holds no complete frame. *)
Definition noCompleteFrame (b : list Z) : Prop :=
  (length b < 2)%nat
  \/ exists len, b !! 1%nat = Some len /\ Z.of_nat (length b) < 2 + len.

(** The code units of the two decimal digits of a number below 100. *)
Definition twoDigits (n : Z) : list Z := [48 + n / 10; 48 + n mod 10].

(** The command byte and the payload length of each kind of request. *)
Definition commandOf (t : req_type) : Z :=
  match t with
  | easy_check => CMD_EASY_CHECK
  | easy_info => CMD_EASY_INFO
  | easy_send => CMD_EASY_SEND
  end.

Definition payloadLength (t : req_type) : nat :=
  match t with
  | easy_check => 0
  | easy_info => 2
  | easy_send => 3
  end.

(** The value a request may be resolved with. *)
Definition resolvedWell (e : effect) : Prop :=
  match e with
  | Resolve it v =>
      match type it with
      | easy_check =>
          exists l, v = Some l /\ StronglySorted Z.lt l
            /\ Forall (fun c => 1 <= c <= 15) l
      | _ => v = None
      end
  | _ => True
  end.

(** The frame of [it] has been handed to [serial.write]. *)
Definition wasWritten (it : item) (l : list effect) : Prop :=
  exists buf, In (SerialWrite it buf) l.

(** Every rejection by timeout or write failure has the write of its
    request before it. *)
Definition lateRejects (l : list effect) : Prop :=
  forall l1 it e l2,
    l = l1 ++ Reject it e :: l2 ->
    e = ResponseTimeout \/ e = WriteFailed ->
    wasWritten it l1.

Definition writtenInv (s : state) : Prop :=
  lateRejects (log s)
  /\ Forall (fun it => wasWritten it (log s)) (pendingWrites s)
  /\ Forall (fun e => wasWritten e.2 (log s)) (responseTimers s).

(** Every write in the log is the frame of the request it was made for. *)
Definition writesBuilt (l : list effect) : Prop :=
  forall it buf, In (SerialWrite it buf) l -> buildRequest it = Some (Ok buf).

(** * Properties of the frame codec *)

Section Checksum.

Lemma fold_left_add_acc (l : list Z) (a : Z) :
  fold_left Z.add l a = a + sumZ l.
Proof.
  unfold sumZ. revert a.
  induction l as [|x l IH]; intros a; simpl; [lia|].
  rewrite (IH (a + x)), (IH (0 + x)). lia.
Qed.

Lemma sumZ_cons (x : Z) (l : list Z) : sumZ (x :: l) = x + sumZ l.
Proof. unfold sumZ at 1. simpl. rewrite fold_left_add_acc. lia. Qed.

Lemma sumZ_app (l1 l2 : list Z) : sumZ (l1 ++ l2) = sumZ l1 + sumZ l2.
Proof.
  induction l1 as [|x l1 IH]; simpl; [reflexivity|].
  rewrite !sumZ_cons, IH. lia.
Qed.

Lemma sumZ_nonneg (l : list Z) : is_buffer l -> 0 <= sumZ l.
Proof.
  induction 1 as [|x l Hx _ IH]; [reflexivity|].
  rewrite sumZ_cons. unfold is_byte in Hx. lia.
Qed.

Lemma sumZ_insert (l : list Z) (i : nat) (old b : Z) :
  l !! i = Some old -> sumZ (<[i:=b]> l) = sumZ l - old + b.
Proof.
  revert i. induction l as [|x l IH]; intros [|i] H; simpl in *; try discriminate.
  - injection H as ->. rewrite !sumZ_cons. lia.
  - rewrite !sumZ_cons, (IH i H). lia.
Qed.

Lemma checksum_mod (l : list Z) :
  is_buffer l -> checksum l = (256 - sumZ l mod 256) mod 256.
Proof.
  intros Hl. unfold checksum. fold (sumZ l).
  pose proof (sumZ_nonneg l Hl) as Hs.
  rewrite (Z.rem_mod_nonneg (sumZ l) 256) by lia.
  pose proof (Z.mod_pos_bound (sumZ l) 256 ltac:(lia)).
  rewrite Z.rem_mod_nonneg by lia. reflexivity.
Qed.

Lemma checksum_byte (l : list Z) : is_buffer l -> is_byte (checksum l).
Proof.
  intros Hl. rewrite checksum_mod by assumption.
  apply Z.mod_pos_bound. lia.
Qed.

(** Appending the checksum makes the sum a multiple of 256. *)
Lemma checksum_closes (l : list Z) :
  is_buffer l -> (sumZ l + checksum l) mod 256 = 0.
Proof.
  intros Hl. rewrite checksum_mod by assumption.
  rewrite Zplus_mod_idemp_r.
  replace (sumZ l + (256 - sumZ l mod 256))
    with (sumZ l - sumZ l mod 256 + 1 * 256) by lia.
  rewrite Z_mod_plus_full.
  rewrite Zminus_mod_idemp_r. rewrite Z.sub_diag. reflexivity.
Qed.

End Checksum.

Section Frames.

Lemma Buffer_from_buffer (l : list Z) : is_buffer l -> Buffer_from l = l.
Proof.
  unfold Buffer_from.
  induction 1 as [|x l Hx _ IH]; simpl; [reflexivity|].
  rewrite IH, Z.mod_small by exact Hx. reflexivity.
Qed.


Lemma buildFrame_frameOf (c : Z) (p : list Z) :
  is_byte c -> is_buffer p -> (length p <= 253)%nat ->
  buildFrame c p = frameOf HEADER c p.
Proof.
  intros Hc Hp Hlen. unfold buildFrame, frameOf.
  assert (Hbody : is_buffer (c :: p)) by (constructor; assumption).
  rewrite (Buffer_from_buffer (c :: p)) by assumption.
  assert (Hhl : is_buffer [HEADER; Z.of_nat (length (c :: p)) + 1]).
  { repeat constructor; unfold HEADER; simpl length; lia. }
  rewrite (Buffer_from_buffer _ Hhl).
  assert (Hall : is_buffer ([HEADER; Z.of_nat (length (c :: p)) + 1] ++ c :: p)).
  { apply Forall_app; split; assumption. }
  rewrite (Buffer_from_buffer [checksum _]).
  2:{ repeat constructor; apply checksum_byte, Hall. }
  replace (Z.of_nat (length (c :: p)) + 1) with (Z.of_nat (length p) + 2)
    by (simpl length; lia).
  reflexivity.
Qed.

Lemma frameOf_length (h c : Z) (p : list Z) :
  length (frameOf h c p) = (length p + 4)%nat.
Proof. unfold frameOf. simpl. rewrite length_app. simpl. lia. Qed.

Lemma frameOf_buffer (h c : Z) (p : list Z) :
  is_byte h -> is_byte c -> is_buffer p -> (length p <= 253)%nat ->
  is_buffer (frameOf h c p).
Proof.
  intros Hh Hc Hp Hlen. unfold frameOf.
  assert (Hpre : is_buffer ([h; Z.of_nat (length p) + 2] ++ c :: p)).
  { simpl. constructor; [assumption|]. constructor; [unfold is_byte; lia|].
    constructor; assumption. }
  change (is_buffer (([h; Z.of_nat (length p) + 2] ++ c :: p)
            ++ [checksum ([h; Z.of_nat (length p) + 2] ++ c :: p)])).
  apply Forall_app; split; [exact Hpre|].
  constructor; [|constructor]. apply checksum_byte, Hpre.
Qed.

(** [parseFrame] accepts a written-out frame whatever its first byte. *)
Lemma parseFrame_frameOf (h c : Z) (p : list Z) :
  parseFrame (frameOf h c p)
  = Some {| cmd := Some c; Protocol.payload := p |}.
Proof.
  unfold parseFrame. rewrite frameOf_length.
  destruct (Nat.ltb_spec (length p + 4) 3) as [Hlt|_]; [lia|].
  unfold frameOf at 1. cbn [app lookup list_lookup].
  set (len := Z.of_nat (length p) + 2).
  destruct (Z.ltb_spec (Z.of_nat (length p + 4)) (2 + len)) as [Hlt|_];
    [unfold len in Hlt; lia|].
  assert (Hframe : subarray (frameOf h c p) 0 (2 + len) = frameOf h c p).
  { unfold subarray. simpl drop. apply take_ge.
    rewrite frameOf_length. unfold len. lia. }
  rewrite Hframe.
  assert (Hpre : subarray (frameOf h c p) 0 (2 + len - 1) = [h; len] ++ c :: p).
  { unfold subarray. simpl drop. unfold frameOf. fold len.
    replace (Z.to_nat (2 + len - 1 - 0)) with (length ([h; len] ++ c :: p))
      by (simpl; unfold len; lia).
    exact (take_app_length ([h; len] ++ c :: p)
             [checksum ([h; len] ++ c :: p)]). }
  rewrite Hpre.
  assert (Hlast : frameOf h c p !! Z.to_nat (2 + len - 1)
                  = Some (checksum ([h; len] ++ c :: p))).
  { unfold frameOf. fold len.
    replace (Z.to_nat (2 + len - 1)) with (length ([h; len] ++ c :: p))
      by (simpl; unfold len; lia).
    exact (list_lookup_middle ([h; len] ++ c :: p) []
             (checksum ([h; len] ++ c :: p)) _ eq_refl). }
  rewrite Hlast.
  destruct (decide _) as [_|Hne]; [|congruence].
  assert (Hbody : subarray (frameOf h c p) 2 (2 + len - 1) = c :: p).
  { unfold subarray, frameOf. fold len. simpl drop.
    replace (Z.to_nat (2 + len - 1 - 2)) with (length (c :: p))
      by (simpl; unfold len; lia).
    exact (take_app_length (c :: p) [checksum ([h; len] ++ c :: p)]). }
  rewrite Hbody. reflexivity.
Qed.

(** What [parseFrame] has checked when it returns an object. *)
Lemma parseFrame_Some_inv (f : list Z) (r : parsed) :
  is_buffer f -> parseFrame f = Some r ->
  exists len, f !! 1%nat = Some len
    /\ 2 + len <= Z.of_nat (length f)
    /\ sumZ (take (Z.to_nat (2 + len)) f) mod 256 = 0.
Proof.
  intros Hf. unfold parseFrame.
  destruct (Nat.ltb_spec (length f) 3) as [|Hl3]; [discriminate|].
  destruct (f !! 1%nat) as [len|] eqn:Hlen; [|discriminate].
  destruct (Z.ltb_spec (Z.of_nat (length f)) (2 + len)) as [|Htot]; [discriminate|].
  assert (Hb : is_byte len).
  { eapply Forall_forall; [exact Hf|]. eapply list_elem_of_lookup_2, Hlen. }
  unfold is_byte in Hb.
  destruct (decide _) as [Heq|]; [|discriminate]. intros _.
  exists len. split; [reflexivity|]. split; [assumption|].
  unfold subarray in Heq. rewrite !Z.sub_0_r in Heq.
  change (Z.to_nat 0) with 0%nat in Heq. rewrite !drop_0 in Heq.
  set (t := Z.to_nat (2 + len)) in *.
  assert (Ht : Z.to_nat (2 + len - 1) = pred t) by (unfold t; lia).
  rewrite Ht in Heq.
  assert (Hpos : (0 < t <= length f)%nat) by (unfold t; lia).
  rewrite lookup_take_lt in Heq by lia.
  rewrite take_take in Heq.
  replace (pred t `min` t)%nat with (pred t) in Heq by lia.
  assert (Hsplit : take t f = take (pred t) f ++ [checksum (take (pred t) f)]).
  { replace t with (S (pred t)) at 1 by lia.
    erewrite take_S_r by exact Heq. reflexivity. }
  rewrite Hsplit, sumZ_app, sumZ_cons. change (sumZ []) with 0.
  rewrite Z.add_0_r. apply checksum_closes.
  apply Forall_take, Hf.
Qed.

Lemma bytesToChannel_loop_exits (fuel : nat) (n c : Z) :
  16 - c <= Z.of_nat fuel ->
  let '(n', c') := bytesToChannel_loop fuel n c in n' = 1 \/ 15 < c'.
Proof.
  revert n c. induction fuel as [|fuel IH]; intros n c Hf; simpl.
  - right. lia.
  - destruct (Z.eqb_spec n 1) as [->|Hn]; simpl; [left; reflexivity|].
    destruct (Z.leb_spec c 15) as [Hc|Hc]; [|right; lia].
    apply IH. lia.
Qed.

End Frames.

Section SpecExamples.

Example buildFrame_info_1 :
  channelToBytes 1 = Ok (0x00, 0x01)
  /\ buildFrame 0x4E [0x00; 0x01] = [0xAA; 0x04; 0x4E; 0x00; 0x01; 0x03].
Proof. split; reflexivity. Qed.

Example confirm_1_3 :
  parseFrame [0xAA; 0x04; 0x4B; 0x00; 0x05; 0x02]
  = Some {| cmd := Some RSP_EASY_CONFIRM; Protocol.payload := [0x00; 0x05] |}
  /\ bitmapToChannels 0x00 0x05 = [1; 3].
Proof. split; reflexivity. Qed.

Example ack_1_top :
  parseFrame ackFrame
  = Some {| cmd := Some RSP_EASY_ACK; Protocol.payload := [0x00; 0x01; 0x01] |}
  /\ bytesToChannel 0x00 0x01 = 1
  /\ statusByteToDriveSemantic (Some 0x01) = top_position.
Proof. repeat split; reflexivity. Qed.

Example timeout_then_next :
  (fun s => (settledIds (log s), map isWrite (log s)))
    <$> run init [Enqueue easy_info (Some 5) None; TimerProcessNext;
                  WriteDone 0 true; Enqueue easy_check None None;
                  TimerResponse 1; TimerProcessNext]
  = Some ([0%nat], [true; false; true]).
Proof. vm_compute. reflexivity. Qed.

End SpecExamples.

Section CodecClaims.

(** C1 (as amended). [buildFrame(0x4A, [])] is [AA 02 4A 0A]: the bytes
    [AA 02 4A] sum to 246, so the checksum
    [(256 - sum % 256) % 256] is [0x0A]. *)
Theorem buildFrame_easy_check :
  buildFrame 0x4A [] = [0xAA; 0x02; 0x4A; 0x0A]
  /\ checksum [0xAA; 0x02; 0x4A] = 0x0A.
Proof. split; reflexivity. Qed.

(** C1 (as stated) fails: the frame is not [AA 02 4A 9C], and the checksum
    of [AA 02 4A] is not [0x9C]. *)
Lemma buildFrame_easy_check_not_9C :
  buildFrame 0x4A [] <> [0xAA; 0x02; 0x4A; 0x9C]
  /\ checksum [0xAA; 0x02; 0x4A] <> 0x9C.
Proof. split; intros H; vm_compute in H; discriminate H. Qed.

(** C6 (as amended). For every command byte and every payload of at most
    253 bytes, [parseFrame(buildFrame(cmd, payload))] returns
    [{ cmd, payload }]. *)
Theorem parseFrame_buildFrame (c : Z) (p : list Z) :
  is_byte c -> is_buffer p -> (length p <= 253)%nat ->
  parseFrame (buildFrame c p) = Some {| cmd := Some c; Protocol.payload := p |}.
Proof.
  intros Hc Hp Hlen.
  rewrite buildFrame_frameOf by assumption.
  apply parseFrame_frameOf.
Qed.

Lemma parseFrame_buildFrame_witness :
  parseFrame (buildFrame 0x4E [0x00; 0x01])
  = Some {| cmd := Some 0x4E; Protocol.payload := [0x00; 0x01] |}.
Proof.
  apply (parseFrame_buildFrame 0x4E [0x00; 0x01]).
  - unfold is_byte. lia.
  - repeat constructor; unfold is_byte; lia.
  - simpl. lia.
Defined.

(** C6 (as stated) fails: with a payload of 254 bytes the length field
    wraps around to 0 and [parseFrame] returns [null]. *)
Lemma parseFrame_buildFrame_254 :
  is_byte 0x4A /\ is_buffer (repeat 0 254)
  /\ parseFrame (buildFrame 0x4A (repeat 0 254)) = None.
Proof.
  split; [unfold is_byte; lia|]. split.
  - apply Forall_forall. intros x Hx.
    apply list_elem_of_In, repeat_spec in Hx. subst x. unfold is_byte. lia.
  - vm_compute. reflexivity.
Qed.

(** C7. For every channel [c] in 1..15, [channelToBytes(c)] returns a pair
    that [bytesToChannel] decodes to [c]. *)
Theorem bytesToChannel_channelToBytes (c : Z) :
  1 <= c <= 15 ->
  exists high low,
    channelToBytes c = Ok (high, low) /\ bytesToChannel high low = c.
Proof.
  intros Hc.
  assert (H : c = 1 \/ c = 2 \/ c = 3 \/ c = 4 \/ c = 5 \/ c = 6 \/ c = 7
              \/ c = 8 \/ c = 9 \/ c = 10 \/ c = 11 \/ c = 12 \/ c = 13
              \/ c = 14 \/ c = 15) by lia.
  repeat (destruct H as [->|H]); try subst c;
    (eexists; eexists; split; [reflexivity|reflexivity]).
Qed.

Lemma bytesToChannel_channelToBytes_witness :
  exists high low,
    channelToBytes 9 = Ok (high, low) /\ bytesToChannel high low = 9.
Proof. apply (bytesToChannel_channelToBytes 9). lia. Defined.

(** C8 (as amended). In a frame built from a command byte and a payload of
    at most 253 bytes, replacing one byte by a different byte makes
    [parseFrame] return [null], provided the byte is not the length field
    (index 1) or the new length is larger than the old one. *)
Theorem parseFrame_corrupted (c : Z) (p : list Z) (i : nat) (old b : Z) :
  is_byte c -> is_buffer p -> (length p <= 253)%nat ->
  buildFrame c p !! i = Some old -> is_byte b -> b <> old ->
  (i <> 1%nat \/ old < b) ->
  parseFrame (<[i:=b]> (buildFrame c p)) = None.
Proof.
  intros Hc Hp Hlen Hi Hb Hne Hpos.
  rewrite buildFrame_frameOf in * by assumption.
  set (f := frameOf HEADER c p) in *.
  assert (HH : is_byte HEADER) by (unfold is_byte, HEADER; lia).
  pose proof (frameOf_buffer HEADER c p HH Hc Hp Hlen) as Hf. fold f in Hf.
  assert (Hold : is_byte old).
  { eapply Forall_forall; [exact Hf|]. eapply list_elem_of_lookup_2, Hi. }
  assert (Hf' : is_buffer (<[i:=b]> f)).
  { apply Forall_insert; assumption. }
  destruct (parseFrame (<[i:=b]> f)) as [r|] eqn:Hparse; [exfalso|reflexivity].
  destruct (parseFrame_Some_inv _ _ Hf' Hparse) as (len & Hl1 & Htot & Hsum).
  rewrite length_insert in Htot.
  pose proof (frameOf_length HEADER c p) as Hflen. fold f in Hflen.
  assert (Hf1 : f !! 1%nat = Some (Z.of_nat (length p) + 2)) by reflexivity.
  assert (Hfsum : sumZ f mod 256 = 0).
  { destruct (parseFrame_Some_inv f _ Hf (parseFrame_frameOf HEADER c p))
      as (len0 & Hl0 & _ & Hs0).
    rewrite Hf1 in Hl0. injection Hl0 as <-.
    rewrite take_ge in Hs0 by lia. exact Hs0. }
  destruct (decide (i = 1%nat)) as [->|Hi1].
  - (* the length field was replaced by a larger value *)
    rewrite list_lookup_insert_eq in Hl1 by lia. injection Hl1 as <-.
    rewrite Hf1 in Hi. injection Hi as <-.
    destruct Hpos as [Hpos|Hpos]; [congruence|]. lia.
  - rewrite list_lookup_insert_ne in Hl1 by congruence.
    rewrite Hf1 in Hl1. injection Hl1 as <-.
    rewrite take_ge in Hsum by (rewrite length_insert; lia).
    rewrite (sumZ_insert f i old b Hi) in Hsum.
    unfold is_byte in Hb, Hold.
    apply Z.mod_divide in Hfsum; [|lia]. apply Z.mod_divide in Hsum; [|lia].
    destruct Hfsum as [k Hk]. destruct Hsum as [k' Hk'].
    lia.
Qed.

Lemma parseFrame_corrupted_witness :
  parseFrame (<[3%nat:=0x05]> (buildFrame 0x4B [0x00; 0x01])) = None.
Proof.
  apply (parseFrame_corrupted 0x4B [0x00; 0x01] 3 0x00 0x05).
  - unfold is_byte. lia.
  - repeat constructor; unfold is_byte; lia.
  - simpl. lia.
  - reflexivity.
  - unfold is_byte. lia.
  - lia.
  - left. lia.
Defined.

(** C8 (as stated) fails. In [buildFrame(0x4A, [0x0A]) = AA 03 4A 0A FF],
    replacing the length 3 by 2 leaves the prefix [AA 02 4A 0A], which is a
    frame of its own, and [parseFrame] returns its command. And when the
    payload has 254 bytes, so that the length field has wrapped around to 0,
    replacing the header by 0 makes [parseFrame] return an object. *)
Lemma parseFrame_corrupted_accepted :
  (buildFrame 0x4A [0x0A] = [0xAA; 0x03; 0x4A; 0x0A; 0xFF]
   /\ parseFrame (<[1%nat:=0x02]> (buildFrame 0x4A [0x0A]))
      = Some {| cmd := Some 0x4A; Protocol.payload := [] |})
  /\ (buildFrame 0x4A (repeat 0 254) !! 0%nat = Some 0xAA
      /\ parseFrame (<[0%nat:=0x00]> (buildFrame 0x4A (repeat 0 254)))
         = Some {| cmd := None; Protocol.payload := [] |}).
Proof. repeat split; vm_compute; reflexivity. Qed.

(** C10. [parseFrame] does not compare the first byte with [HEADER]: the
    buffer [00 04 4B 00 05 AC] does not start with [0xAA], its length field
    and checksum are consistent, [parseFrame] returns its command and
    payload, and [onSerialData] stores the channels it carries. *)
Theorem parseFrame_accepts_other_header :
  exists buf : list Z,
    is_buffer buf
    /\ buf !! 0%nat <> Some HEADER
    /\ parseFrame buf
       = Some {| cmd := Some RSP_EASY_CONFIRM; Protocol.payload := [0x00; 0x05] |}
    /\ State.learnedChannels (store (onSerialData buf init)) = [1; 3].
Proof.
  exists [0x00; 0x04; 0x4B; 0x00; 0x05; 0xAC].
  split; [repeat constructor; unfold is_byte; lia|].
  split; [discriminate|].
  split; vm_compute; reflexivity.
Qed.

End CodecClaims.

(** * Properties of the read buffer *)

(** The branches of [handleFrame]: the command byte, the variable
    [responseTimer], the head of the queue and its type. *)
Ltac handleFrame_cases p s :=
  destruct s as [q rb rt pr st pn rts pw fr lg];
  unfold handleFrame, clearResponseTimer;
  destruct (decide (cmd p = Some RSP_EASY_CONFIRM));
    [|destruct (decide (cmd p = Some RSP_EASY_ACK))];
  cbn [responseTimer set_store store queue set_timers];
  try match goal with
      | |- context [if ?b then _ else _] => destruct b
      end;
  cbn [responseTimer set_store store queue set_timers];
  destruct rt; destruct q as [|[i [] c py] q]; cbn.

Section ReadBuffer.

Lemma handleFrame_readBuffer (p : parsed) (s : state) :
  readBuffer (handleFrame p s) = readBuffer s.
Proof.
  handleFrame_cases p s; reflexivity.
Qed.

Lemma handleFrame_set_readBuffer (p : parsed) (b : list Z) (s : state) :
  handleFrame p (set_readBuffer b s) = set_readBuffer b (handleFrame p s).
Proof.
  handleFrame_cases p s; reflexivity.
Qed.

Lemma set_readBuffer_twice (b b' : list Z) (s : state) :
  set_readBuffer b (set_readBuffer b' s) = set_readBuffer b s.
Proof. reflexivity. Qed.


Lemma onSerialData_loop_unfold (fuel : nat) (s : state) :
  onSerialData_loop (S fuel) s
  = match nextFrame s with
    | None => s
    | Some s' => onSerialData_loop fuel s'
    end.
Proof.
  unfold nextFrame. simpl.
  repeat case_match; reflexivity.
Qed.

(** A turn of the loop removes at least two bytes. *)
Lemma nextFrame_shrinks (s s' : state) :
  is_buffer (readBuffer s) -> nextFrame s = Some s' ->
  is_buffer (readBuffer s')
  /\ (length (readBuffer s') + 2 <= length (readBuffer s))%nat.
Proof.
  intros Hb. unfold nextFrame.
  destruct (Nat.ltb_spec (length (readBuffer s)) 2) as [|H2]; [discriminate|].
  destruct (readBuffer s !! 1%nat) as [len|] eqn:Hlen; [|discriminate].
  destruct (Z.ltb_spec (Z.of_nat (length (readBuffer s))) (2 + len)) as [|Ht];
    [discriminate|].
  assert (Hl : is_byte len).
  { eapply Forall_forall; [exact Hb|]. eapply list_elem_of_lookup_2, Hlen. }
  unfold is_byte in Hl.
  assert (Hrb : forall s0, readBuffer s0 = subarray_from (readBuffer s) (2 + len) ->
            is_buffer (readBuffer s0)
            /\ (length (readBuffer s0) + 2 <= length (readBuffer s))%nat).
  { intros s0 ->. unfold subarray_from. split.
    - apply Forall_drop, Hb.
    - rewrite length_drop. lia. }
  destruct (parseFrame _); intros [= <-]; apply Hrb.
  - rewrite handleFrame_readBuffer. reflexivity.
  - reflexivity.
Qed.

(** The length of the buffer is fuel enough: more changes nothing. *)
Lemma onSerialData_loop_fuel (f1 f2 : nat) (s : state) :
  is_buffer (readBuffer s) ->
  (length (readBuffer s) <= f1)%nat -> (length (readBuffer s) <= f2)%nat ->
  onSerialData_loop f1 s = onSerialData_loop f2 s.
Proof.
  revert f2 s. induction f1 as [|f1 IH]; intros f2 s Hb H1 H2.
  - destruct f2 as [|f2]; [reflexivity|].
    rewrite onSerialData_loop_unfold. simpl.
    destruct (nextFrame s) as [s'|] eqn:Hn; [|reflexivity].
    apply nextFrame_shrinks in Hn; [lia|assumption].
  - rewrite onSerialData_loop_unfold.
    destruct (nextFrame s) as [s'|] eqn:Hn.
    + destruct (nextFrame_shrinks s s' Hb Hn) as [Hb' Hlen].
      destruct f2 as [|f2]; [lia|].
      rewrite onSerialData_loop_unfold, Hn. apply IH; [assumption|lia|lia].
    + destruct f2 as [|f2]; [reflexivity|].
      rewrite onSerialData_loop_unfold, Hn. reflexivity.
Qed.

Lemma onSerialData_loop_shrinks (f : nat) (s : state) :
  is_buffer (readBuffer s) ->
  is_buffer (readBuffer (onSerialData_loop f s))
  /\ (length (readBuffer (onSerialData_loop f s)) <= length (readBuffer s))%nat.
Proof.
  revert s. induction f as [|f IH]; intros s Hb; [simpl; split; [assumption|lia]|].
  rewrite onSerialData_loop_unfold.
  destruct (nextFrame s) as [s'|] eqn:Hn; [|split; [assumption|lia]].
  destruct (nextFrame_shrinks s s' Hb Hn) as [Hb' Hlen].
  destruct (IH s' Hb') as [Hb'' Hlen'']. split; [assumption|lia].
Qed.

(** A turn of the loop does not look past the frame it removes. *)
Lemma nextFrame_app (s s' : state) (d : list Z) :
  is_buffer (readBuffer s) -> nextFrame s = Some s' ->
  nextFrame (set_readBuffer (readBuffer s ++ d) s)
  = Some (set_readBuffer (readBuffer s' ++ d) s').
Proof.
  intros Hb. unfold nextFrame.
  change (readBuffer (set_readBuffer (readBuffer s ++ d) s))
    with (readBuffer s ++ d).
  destruct (Nat.ltb_spec (length (readBuffer s)) 2) as [|H2]; [discriminate|].
  destruct (readBuffer s !! 1%nat) as [len|] eqn:Hlen; [|discriminate].
  destruct (Z.ltb_spec (Z.of_nat (length (readBuffer s))) (2 + len)) as [|Ht];
    [discriminate|].
  assert (Hl : is_byte len).
  { eapply Forall_forall; [exact Hb|]. eapply list_elem_of_lookup_2, Hlen. }
  unfold is_byte in Hl.
  rewrite length_app.
  destruct (Nat.ltb_spec (length (readBuffer s) + length d) 2) as [|_]; [lia|].
  rewrite lookup_app_l by lia. rewrite Hlen.
  destruct (Z.ltb_spec (Z.of_nat (length (readBuffer s) + length d)) (2 + len))
    as [|_]; [lia|].
  assert (Hframe : subarray (readBuffer s ++ d) 0 (2 + len)
                   = subarray (readBuffer s) 0 (2 + len)).
  { unfold subarray. change (Z.to_nat 0) with 0%nat. rewrite !drop_0.
    apply take_app_le. lia. }
  assert (Hrest : subarray_from (readBuffer s ++ d) (2 + len)
                  = subarray_from (readBuffer s) (2 + len) ++ d).
  { unfold subarray_from. apply drop_app_le. lia. }
  rewrite Hframe, Hrest, set_readBuffer_twice.
  destruct (parseFrame _) as [p|]; intros [= <-].
  - rewrite !handleFrame_set_readBuffer. reflexivity.
  - reflexivity.
Qed.

(** Running the loop on a buffer and then on what it left followed by [d]
    is running it on the buffer followed by [d]. *)
Lemma onSerialData_loop_app (f F : nat) (s : state) (d : list Z) :
  is_buffer (readBuffer s) -> is_buffer d ->
  (length (readBuffer s) <= f)%nat ->
  (length (readBuffer s) + length d <= F)%nat ->
  onSerialData_loop F (set_readBuffer (readBuffer s ++ d) s)
  = onSerialData_loop F
      (set_readBuffer (readBuffer (onSerialData_loop f s) ++ d)
         (onSerialData_loop f s)).
Proof.
  revert F s. induction f as [|f IH]; intros F s Hb Hd Hf HF; [reflexivity|].
  rewrite (onSerialData_loop_unfold f s).
  destruct (nextFrame s) as [s'|] eqn:Hn; [|reflexivity].
  destruct (nextFrame_shrinks s s' Hb Hn) as [Hb' Hlen].
  destruct F as [|F]; [lia|].
  rewrite (onSerialData_loop_unfold F (set_readBuffer (readBuffer s ++ d) s)).
  rewrite (nextFrame_app s s' d Hb Hn).
  rewrite (IH F s') by (assumption || lia).
  destruct (onSerialData_loop_shrinks f s' Hb') as [Hb'' Hlen''].
  apply onSerialData_loop_fuel.
  - apply Forall_app. split; assumption.
  - simpl. rewrite length_app. lia.
  - simpl. rewrite length_app. lia.
Qed.

Lemma onSerialData_app (s : state) (d1 d2 : list Z) :
  is_buffer (readBuffer s) -> is_buffer d1 -> is_buffer d2 ->
  onSerialData d2 (onSerialData d1 s) = onSerialData (d1 ++ d2) s.
Proof.
  intros Hb H1 H2.
  set (s0 := set_readBuffer (readBuffer s ++ d1) s).
  assert (Hb0 : is_buffer (readBuffer s0)) by (apply Forall_app; split; assumption).
  set (s1 := onSerialData_loop (length (readBuffer s0)) s0).
  destruct (onSerialData_loop_shrinks (length (readBuffer s0)) s0 Hb0)
    as [Hb1 Hlen1]. fold s1 in Hb1, Hlen1.
  assert (Hrhs : onSerialData (d1 ++ d2) s
                 = onSerialData_loop (length (readBuffer s0 ++ d2))
                     (set_readBuffer (readBuffer s0 ++ d2) s0)).
  { unfold onSerialData. subst s0. cbn [readBuffer set_readBuffer].
    rewrite set_readBuffer_twice, <- (app_assoc (readBuffer s) d1 d2).
    reflexivity. }
  rewrite Hrhs.
  rewrite (onSerialData_loop_app (length (readBuffer s0)) _ s0 d2)
    by (assumption || rewrite ?length_app; lia).
  fold s1. change (onSerialData d1 s) with s1.
  unfold onSerialData. cbn [readBuffer set_readBuffer].
  apply onSerialData_loop_fuel.
  - apply Forall_app. split; assumption.
  - reflexivity.
  - cbn [readBuffer set_readBuffer]. rewrite !length_app. lia.
Qed.

(** C9. Whatever the state of the dispatcher, delivering the bytes of a
    frame (of any byte sequence) to [onSerialData] in two chunks, split
    at any point, leaves the dispatcher in the very state that one delivery
    of all the bytes leaves it in: same read buffer, same queue, same
    store, same timers, same resolved and rejected requests. *)
Theorem onSerialData_two_chunks (s : state) (frame : list Z) (k : nat) :
  is_buffer (readBuffer s) -> is_buffer frame ->
  onSerialData (drop k frame) (onSerialData (take k frame) s)
  = onSerialData frame s.
Proof.
  intros Hb Hf.
  rewrite onSerialData_app.
  - rewrite take_drop. reflexivity.
  - assumption.
  - apply Forall_take, Hf.
  - apply Forall_drop, Hf.
Qed.

(** One complete frame delivered to a dispatcher with an empty read buffer
    is decoded and handled, and the buffer is empty again. *)
Lemma onSerialData_frame (s : state) (c : Z) (p : list Z) :
  readBuffer s = [] -> is_byte c -> is_buffer p -> (length p <= 253)%nat ->
  onSerialData (buildFrame c p) s
  = handleFrame {| cmd := Some c; Protocol.payload := p |} s.
Proof.
  intros Hrb Hc Hp Hlen. unfold onSerialData. rewrite Hrb. simpl app.
  rewrite buildFrame_frameOf by assumption.
  assert (Hs : set_readBuffer [] s = s)
    by (destruct s; cbn in Hrb; subst; reflexivity).
  change (readBuffer (set_readBuffer (frameOf HEADER c p) s))
    with (frameOf HEADER c p).
  rewrite frameOf_length.
  replace (length p + 4)%nat with (S (length p + 3)) by lia.
  rewrite onSerialData_loop_unfold. unfold nextFrame.
  change (readBuffer (set_readBuffer (frameOf HEADER c p) s))
    with (frameOf HEADER c p).
  rewrite frameOf_length.
  destruct (Nat.ltb_spec (length p + 4) 2) as [|_]; [lia|].
  change (frameOf HEADER c p !! 1%nat) with (Some (Z.of_nat (length p) + 2)).
  cbv beta iota zeta.
  destruct (Z.ltb_spec (Z.of_nat (length p + 4)) (2 + (Z.of_nat (length p) + 2)))
    as [|_]; [lia|].
  assert (Hframe : subarray (frameOf HEADER c p) 0 (2 + (Z.of_nat (length p) + 2))
                   = frameOf HEADER c p).
  { unfold subarray. change (Z.to_nat 0) with 0%nat. rewrite drop_0.
    apply take_ge. rewrite frameOf_length. lia. }
  assert (Hrest : subarray_from (frameOf HEADER c p) (2 + (Z.of_nat (length p) + 2))
                  = []).
  { unfold subarray_from. apply drop_ge. rewrite frameOf_length. lia. }
  rewrite Hframe, Hrest, parseFrame_frameOf, set_readBuffer_twice, Hs.
  destruct (length p + 3)%nat; [reflexivity|].
  rewrite onSerialData_loop_unfold. unfold nextFrame.
  rewrite handleFrame_readBuffer, Hrb. reflexivity.
Qed.

Lemma onSerialData_two_chunks_witness :
  onSerialData (drop 3 ackFrame)
    (onSerialData (take 3 ackFrame) (easyInfo (Some 1) init))
  = onSerialData ackFrame (easyInfo (Some 1) init).
Proof.
  apply (onSerialData_two_chunks (easyInfo (Some 1) init) ackFrame 3).
  - constructor.
  - repeat constructor; unfold is_byte; lia.
Defined.

End ReadBuffer.

(** * Properties of the dispatcher *)

Section Monitor.


Lemma watch_Done (l : list effect) : fold_left watch l Done = Done.
Proof. induction l; simpl; auto. Qed.






End Monitor.

Section Handlers.

Lemma clearTimeout_Forall (P : nat * item -> Prop) (h : nat)
    (t : list (nat * item)) :
  Forall P t -> Forall P (clearTimeout h t).
Proof.
  unfold clearTimeout. rewrite !Forall_forall. intros H x Hx.
  apply list_elem_of_filter in Hx as [_ Hx]. auto.
Qed.

Lemma lookupTimer_elem (h : nat) (t : list (nat * item)) (it : item) :
  lookupTimer h t = Some it -> (h, it) ∈ t.
Proof.
  unfold lookupTimer.
  destruct (list_find _ t) as [[k [h' it']]|] eqn:Hf; [|discriminate].
  intros [= ->]. apply list_find_Some in Hf as (Hl & Hh & _).
  simpl in Hh. subst h'. eapply list_elem_of_lookup_2, Hl.
Qed.


Lemma firstWriteInv_set_readBuffer (b : list Z) (s : state) :
  firstWriteInv s -> firstWriteInv (set_readBuffer b s).
Proof. intros H. exact H. Qed.



(** The loop of [onSerialData] keeps what setting the buffer and handling
    a frame keep. *)
Lemma onSerialData_loop_keeps (P : state -> Prop) :
  (forall b s, P s -> P (set_readBuffer b s)) ->
  (forall p s, P s -> P (handleFrame p s)) ->
  forall f s, P s -> P (onSerialData_loop f s).
Proof.
  intros Hset Hframe. induction f as [|f IH]; intros s Hs; [exact Hs|].
  rewrite onSerialData_loop_unfold.
  destruct (nextFrame s) as [s'|] eqn:Hn; [|exact Hs].
  apply IH. unfold nextFrame in Hn.
  repeat case_match; try discriminate; injection Hn as <-; auto.
Qed.

Lemma onSerialData_keeps (P : state -> Prop) :
  (forall b s, P s -> P (set_readBuffer b s)) ->
  (forall p s, P s -> P (handleFrame p s)) ->
  forall d s, P s -> P (onSerialData d s).
Proof.
  intros Hset Hframe d s Hs. unfold onSerialData.
  apply onSerialData_loop_keeps; auto.
Qed.

Lemma run_keeps (P : state -> Prop) :
  (forall s e s', P s -> step s e = Some s' -> P s') ->
  forall tr s s', P s -> run s tr = Some s' -> P s'.
Proof.
  intros Hstep. induction tr as [|e tr IH]; intros s s' Hs; simpl.
  - intros [= <-]. exact Hs.
  - destruct (step s e) as [s1|] eqn:He; [|discriminate].
    apply IH. eapply Hstep; eassumption.
Qed.




Lemma validItem_build (it : item) :
  validItem it -> exists buf, buildRequest it = Some (Ok buf).
Proof.
  destruct it as [i [] [c|] [p|]]; unfold validItem, buildRequest; cbn;
    try contradiction; eauto.
  all: intros Hc; unfold buildEasyInfo, buildEasySend, channelToBytes.
  all: destruct (Z.ltb_spec c 1); [lia|].
  all: destruct (Z.gtb_spec c 15); [lia|]; cbn.
  all: destruct (c <=? 8); eauto.
Qed.









Lemma is_byteb_spec (b : Z) : is_byteb b = true <-> is_byte b.
Proof. unfold is_byteb, is_byte. lia. Qed.

(** The read buffer of a running dispatcher holds bytes. *)
Lemma readBuffer_run (tr : list event) (s : state) :
  run init tr = Some s -> is_buffer (readBuffer s).
Proof.
  apply (run_keeps (fun s => is_buffer (readBuffer s))); [|constructor].
  clear. intros s e s' Hs. destruct e as [t c p| |k ok|h|d]; simpl.
  - intros [= <-]. unfold enqueue. repeat case_match; exact Hs.
  - destruct (processNextTimers s); [discriminate|]. intros [= <-].
    unfold processNext, failHead. cbn. repeat case_match; exact Hs.
  - destruct (pendingWrites s !! k); [|discriminate]. intros [= <-].
    destruct ok; exact Hs.
  - destruct (lookupTimer h (responseTimers s)); [|discriminate].
    intros [= <-]. unfold onResponseTimeout. cbn. repeat case_match; exact Hs.
  - destruct (forallb is_byteb d) eqn:Hd; [|discriminate]. intros [= <-].
    apply onSerialData_loop_shrinks. cbn. apply Forall_app. split; [exact Hs|].
    apply Forall_forall. intros x Hx.
    rewrite forallb_forall in Hd. apply is_byteb_spec, Hd, list_elem_of_In, Hx.
Qed.

End Handlers.

Section OneInFlight.







(** What [handleFrame] does to the dispatcher, branch by branch: nothing
    (the frame is neither a confirm nor an ack), or the timer is cleared and
    then the head of the queue is resolved or left alone. *)
Lemma handleFrame_cases_spec (p : parsed) (s : state) :
  let s' := handleFrame p s in
  pendingWrites s' = pendingWrites s
  /\ ((responseTimers s' = responseTimers s
       /\ responseTimer s' = responseTimer s
       /\ log s' = log s /\ queue s' = queue s
       /\ processing s' = processing s)
      \/ (responseTimers s' = clearedTimers s
          /\ responseTimer s' = None
          /\ ((log s' = log s /\ queue s' = queue s
               /\ processing s' = processing s)
              \/ exists a v, head (queue s) = Some a
                   /\ log s' = log s ++ [Resolve a v]))).
Proof.
  unfold clearedTimers.
  handleFrame_cases p s; (split; [reflexivity|]);
    first [ left; repeat split; reflexivity
          | right; split; [reflexivity|]; split; [reflexivity|];
            first [ left; repeat split; reflexivity
                  | right; eexists; eexists; split; reflexivity ] ].
Qed.




End OneInFlight.

Section InFlightClaims.



(** C3 fails on the code: a request is written while a request that was
    written before it is not settled.
    - In the run [staleTimer] requests 0 and 1 are enqueued and every write
      succeeds. The response to request 0 arrives before the write of
      request 0 has completed, so that the completion arms a response timer
      for a request that is settled already. Request 1 is written and
      waits for its response. When the timer of request 0 fires, its
      callback leaves the queue alone, request 0 not being the head, but
      resets [processing] and schedules [processNext], which writes
      request 1 a second time: request 1 is still the head of the queue
      and has been neither resolved nor rejected.
    - In the run [lateWriteFailure] request 2 is written after request 1
      with nothing but the rejection of request 0 in between, and request
      1 is rejected only later. *)
Theorem write_while_in_flight :
  (exists s a fa v b fb,
      run init staleTimer = Some s
      /\ log s = [SerialWrite a fa; Resolve a v;
                  SerialWrite b fb; SerialWrite b fb]
      /\ id a = 0%nat /\ id b = 1%nat
      /\ ~ settledIn b (log s)
      /\ head (queue s) = Some b
      /\ observeAll (log s) = Clash)
  /\ (exists s a fa v b fb c fc w,
        run init lateWriteFailure = Some s
        /\ log s = [SerialWrite a fa; Resolve a v;
                    SerialWrite b fb; Reject a WriteFailed;
                    SerialWrite c fc; Resolve c w; Reject b WriteFailed]
        /\ id a = 0%nat /\ id b = 1%nat /\ id c = 2%nat
        /\ ~ settledIn b [Reject a WriteFailed]
        /\ observeAll (log s) = Clash).
Proof.
  split.
  - destruct (run init staleTimer) as [s|] eqn:Hrun;
      [|vm_compute in Hrun; discriminate Hrun].
    vm_compute in Hrun. injection Hrun as <-.
    do 6 eexists. split; [reflexivity|]. split; [reflexivity|].
    split; [reflexivity|]. split; [reflexivity|].
    split; [|split; reflexivity].
    intros [[v H]|[H|H]]; simpl in H;
      repeat (destruct H as [H|H]; [discriminate H|]); exact H.
  - destruct (run init lateWriteFailure) as [s|] eqn:Hrun;
      [|vm_compute in Hrun; discriminate Hrun].
    vm_compute in Hrun. injection Hrun as <-.
    do 9 eexists. split; [reflexivity|]. split; [reflexivity|].
    split; [reflexivity|]. split; [reflexivity|]. split; [reflexivity|].
    split; [|reflexivity].
    intros [[v H]|[H|H]]; simpl in H;
      repeat (destruct H as [H|H]; [discriminate H|]); exact H.
Qed.

End InFlightClaims.

Section ValidationClaims.

Lemma writesBuilt_snoc (l : list effect) (e : effect) :
  writesBuilt l ->
  match e with
  | SerialWrite it buf => buildRequest it = Some (Ok buf)
  | _ => True
  end ->
  writesBuilt (l ++ [e]).
Proof.
  intros Hl He it buf [Hin|Hin]%in_app_or; [auto|].
  destruct Hin as [->|[]]. exact He.
Qed.

Lemma writesBuilt_handleFrame (p : parsed) (s : state) :
  writesBuilt (log s) -> writesBuilt (log (handleFrame p s)).
Proof.
  handleFrame_cases p s; intros H; try exact H;
    apply writesBuilt_snoc; auto.
Qed.

Lemma writesBuilt_step (s : state) (e : event) (s' : state) :
  writesBuilt (log s) -> step s e = Some s' -> writesBuilt (log s').
Proof.
  intros Hs. destruct e as [t c p| |k ok|h|d]; simpl.
  - intros [= <-]. unfold enqueue. repeat case_match; exact Hs.
  - destruct (processNextTimers s); [discriminate|]. intros [= <-].
    unfold processNext, failHead. cbn.
    destruct (processing s); [exact Hs|].
    destruct (queue s) as [|it q]; [exact Hs|].
    destruct (buildRequest it) as [[buf|e]|] eqn:Hb; cbn;
      apply writesBuilt_snoc; auto.
  - destruct (pendingWrites s !! k); [|discriminate]. intros [= <-].
    destruct ok; cbn; [exact Hs|]. apply writesBuilt_snoc; auto.
  - destruct (lookupTimer h (responseTimers s)); [|discriminate].
    intros [= <-]. unfold onResponseTimeout. cbn.
    destruct (queue s) as [|a q]; [exact Hs|].
    destruct (decide _); cbn; [|exact Hs]. apply writesBuilt_snoc; auto.
  - destruct (forallb is_byteb d); [|discriminate]. intros [= <-].
    apply (onSerialData_keeps (fun s => writesBuilt (log s)));
      auto using writesBuilt_handleFrame.
Qed.

Lemma writesBuilt_run (tr : list event) (s : state) :
  run init tr = Some s -> writesBuilt (log s).
Proof.
  apply (run_keeps (fun s => writesBuilt (log s)) writesBuilt_step).
  intros it buf [].
Qed.

Lemma channelToBytes_out_of_range (c : Z) :
  c < 1 \/ 15 < c -> channelToBytes c = Throw RangeError.
Proof.
  intros Hc. unfold channelToBytes.
  destruct (Z.ltb_spec c 1); [reflexivity|].
  destruct (Z.gtb_spec c 15); [reflexivity|lia].
Qed.

Lemma requestFor_build (c : Z) (it : item) :
  c < 1 \/ 15 < c -> requestFor c it ->
  buildRequest it = Some (Throw RangeError).
Proof.
  intros Hc. destruct it as [i t ch py]. unfold requestFor, buildRequest. cbn.
  intros [(-> & ->)|(-> & -> & [p ->])];
    unfold buildEasyInfo, buildEasySend;
    rewrite channelToBytes_out_of_range by exact Hc; reflexivity.
Qed.

(** C5 (as amended). For every integer [c] outside 1..15:
    [channelToBytes(c)] throws the RangeError; a request for channel [c]
    that has reached the head of the queue is taken off the queue by
    [processNext] and rejected with that error, without a write; and in no
    run is the transport ever written to for such a request. (The request
    itself is enqueued like any other.) *)
Theorem invalid_channel_rejected (c : Z) :
  c < 1 \/ 15 < c ->
  channelToBytes c = Throw RangeError
  /\ (forall s it rest,
        processing s = false -> queue s = it :: rest -> requestFor c it ->
        log (processNext s) = log s ++ [Reject it RangeError]
        /\ queue (processNext s) = rest
        /\ pendingWrites (processNext s) = pendingWrites s
        /\ processing (processNext s) = false
        /\ processNextTimers (processNext s) = S (processNextTimers s))
  /\ (forall tr s it buf,
        run init tr = Some s -> requestFor c it ->
        ~ In (SerialWrite it buf) (log s)).
Proof.
  intros Hc. split; [|split].
  - apply channelToBytes_out_of_range, Hc.
  - intros s it rest Hp Hq Hit. unfold processNext.
    rewrite Hp, Hq, (requestFor_build c it Hc Hit).
    unfold failHead. cbn. rewrite Hq. auto.
  - intros tr s it buf Hrun Hit Hin.
    apply (writesBuilt_run tr s Hrun) in Hin.
    rewrite (requestFor_build c it Hc Hit) in Hin. discriminate Hin.
Qed.

Lemma invalid_channel_rejected_witness :
  channelToBytes 16 = Throw RangeError
  /\ (exists s it,
        run init [Enqueue easy_send (Some 16) (Some 0x20); TimerProcessNext]
        = Some s
        /\ requestFor 16 it
        /\ log s = [Reject it RangeError]
        /\ forall buf, ~ In (SerialWrite it buf) (log s)).
Proof.
  destruct (invalid_channel_rejected 16) as (H1 & H2 & H3); [lia|].
  split; [exact H1|].
  set (it := {| id := 0; type := easy_send; channel := Some 16;
                payload := Some 0x20 |}).
  set (tr := [Enqueue easy_send (Some 16) (Some 0x20); TimerProcessNext]).
  assert (Hit : requestFor 16 it) by (right; cbn; eauto).
  destruct (run init tr) as [s|] eqn:Hrun;
    [|vm_compute in Hrun; discriminate Hrun].
  exists s, it. split; [reflexivity|]. split; [exact Hit|]. split.
  - vm_compute in Hrun. injection Hrun as <-. reflexivity.
  - intros buf. exact (H3 tr s it buf Hrun Hit).
Defined.

(** C5 (as stated) fails: [easyInfo(0)] is not rejected before it is
    enqueued. The request is put on the queue, nothing is rejected and
    [processNext] is scheduled; the rejection comes when that callback
    runs. *)
Lemma invalid_channel_is_enqueued :
  let it := {| id := 0; type := easy_info; channel := Some 0;
               payload := None |} in
  queue (easyInfo (Some 0) init) = [it]
  /\ log (easyInfo (Some 0) init) = []
  /\ processNextTimers (easyInfo (Some 0) init) = 1%nat
  /\ log (processNext (easyInfo (Some 0) init)) = [Reject it RangeError].
Proof. repeat split. Qed.

End ValidationClaims.

Section SettlementClaims.

Lemma handleFrame_timers (p : parsed) (s : state) :
  cmd p = Some RSP_EASY_CONFIRM \/ cmd p = Some RSP_EASY_ACK ->
  responseTimer (handleFrame p s) = None
  /\ responseTimers (handleFrame p s)
     = match responseTimer s with
       | Some h => clearTimeout h (responseTimers s)
       | None => responseTimers s
       end.
Proof.
  intros Hcmd. handleFrame_cases p s; try (split; reflexivity).
  all: destruct Hcmd; contradiction.
Qed.

Lemma waitingForever_step (s : state) (e : event) (s' : state) :
  waitingForever s -> notData e -> step s e = Some s' ->
  waitingForever s' /\ log s' = log s /\ head (queue s') = head (queue s).
Proof.
  destruct s as [q rb rt pr st pn rts pw fr lg].
  intros (Hp & Hq & Hw & Ht & Hn) He. cbn in *. subst.
  destruct e as [t c p| |k ok|h|d]; cbn in *; try contradiction;
    try discriminate.
  intros [= <-]. unfold waitingForever, enqueue. cbn.
    destruct q as [|it q]; [congruence|]. cbn.
    destruct (decide _) as [Hlen|_].
    { rewrite length_app in Hlen. cbn in Hlen. lia. }
    cbn. repeat split; auto.
Qed.

Lemma waitingForever_run (tr : list event) (s s' : state) :
  waitingForever s -> Forall notData tr -> run s tr = Some s' ->
  log s' = log s /\ head (queue s') = head (queue s).
Proof.
  intros Hs Htr. revert s Hs.
  induction Htr as [|e tr He _ IH]; intros s Hs; simpl.
  - intros [= <-]. auto.
  - destruct (step s e) as [s1|] eqn:H1; [|discriminate]. intros Hrun.
    destruct (waitingForever_step s e s1 Hs He H1) as (Hs1 & Hl & Hh).
    destruct (IH s1 Hs1 Hrun) as [Hl' Hh']. split; congruence.
Qed.

(** C2 fails on the code. An [easy_check] is in flight with its response
    timer armed, and the [easy_ack] frame [AA 05 4D 00 01 01 02] arrives.
    The frame is not taken as the response (the request stays at the head
    of the queue, unsettled) and the store gets the status of channel 1;
    but the response timer has been cleared, and from then on, whatever is
    enqueued, as long as no further frame arrives the request is never
    resolved nor rejected. *)
Theorem unmatched_frame_clears_timer :
  exists s0 s1 a h,
    run init checkInFlight = Some s0
    /\ queue s0 = [a] /\ type a = easy_check /\ processing s0 = true
    /\ responseTimer s0 = Some h /\ responseTimers s0 = [(h, a)]
    /\ step s0 (SerialData ackFrame) = Some s1
    /\ queue s1 = [a] /\ log s1 = log s0
    /\ State.channelStatus (store s1) !! 1
       = Some {| State.statusByte := Some 1; State.sem := top_position |}
    /\ responseTimer s1 = None /\ responseTimers s1 = []
    /\ forall tr s',
         Forall notData tr -> run s1 tr = Some s' ->
         log s' = log s0 /\ head (queue s') = Some a.
Proof.
  destruct (run init checkInFlight) as [s0|] eqn:Hrun0;
    [|vm_compute in Hrun0; discriminate Hrun0].
  destruct (step s0 (SerialData ackFrame)) as [s1|] eqn:Hstep.
  2:{ vm_compute in Hrun0. injection Hrun0 as <-. discriminate Hstep. }
  exists s0, s1,
    {| id := 0; type := easy_check; channel := None; payload := None |},
    1%nat.
  assert (Hs1 : waitingForever s1 /\ queue s1 = queue s0 /\ log s1 = log s0).
  { vm_compute in Hrun0. injection Hrun0 as <-.
    vm_compute in Hstep. injection Hstep as <-.
    unfold waitingForever. cbn. repeat split; congruence. }
  destruct Hs1 as (Hwait & Hq1 & Hl1).
  split; [reflexivity|].
  repeat match goal with |- _ /\ _ => split end;
    try (vm_compute in Hrun0; injection Hrun0 as <-;
         vm_compute in Hstep; try injection Hstep as <-; reflexivity).
  intros tr s' Htr Hrun.
  destruct (waitingForever_run tr s1 s' Hwait Htr Hrun) as [Hl Hh].
  rewrite Hl, Hh, Hl1, Hq1. split; [reflexivity|].
  vm_compute in Hrun0. injection Hrun0 as <-. reflexivity.
Qed.

Lemma unmatched_frame_clears_timer_witness :
  exists s1 s' a,
    (run init checkInFlight ≫= fun s0 => step s0 (SerialData ackFrame))
    = Some s1
    /\ run s1 [Enqueue easy_info (Some 1) None; Enqueue easy_check None None]
       = Some s'
    /\ head (queue s') = Some a /\ type a = easy_check
    /\ writes (log s') = log s'.
Proof.
  destruct unmatched_frame_clears_timer
    as (s0 & s1 & a & h & Hrun0 & Hq0 & Hty & _ & _ & _ & Hstep & _ & _ & _
        & _ & _ & Hstuck).
  set (tr := [Enqueue easy_info (Some 1) None; Enqueue easy_check None None]).
  exists s1, (enqueue easy_check None None (enqueue easy_info (Some 1) None s1)), a.
  split; [rewrite Hrun0; exact Hstep|]. split; [reflexivity|].
  destruct (Hstuck tr _ ltac:(repeat constructor) eq_refl) as [Hl Hh].
  split; [exact Hh|]. split; [exact Hty|].
  rewrite Hl. vm_compute in Hrun0. injection Hrun0 as <-. reflexivity.
Defined.

(** C4 fails on the code. In the run [lateWriteFailure] the requests are
    enqueued in the order 0, 1, 2 and their promises settle in the order
    0, 2, 1: the failure callback of the write of request 0 runs after
    request 0 has been resolved, takes request 1 off the queue without
    settling it, and request 1 is rejected only when its own write fails,
    after request 2 has been resolved. *)
Theorem settlement_out_of_order :
  exists s,
    run init lateWriteFailure = Some s
    /\ map (fun e => match e with
                     | SerialWrite it _ => id it
                     | Resolve it _ => id it
                     | Reject it _ => id it
                     end) (log s)
       = [0; 0; 1; 0; 2; 2; 1]%nat
    /\ map isWrite (log s) = [true; false; true; false; true; false; false]
    /\ settleOrder [] (log s) = [0; 2; 1]%nat
    /\ queue s = [].
Proof.
  destruct (run init lateWriteFailure) as [s|] eqn:Hrun;
    [|vm_compute in Hrun; discriminate Hrun].
  exists s. split; [reflexivity|].
  vm_compute in Hrun. injection Hrun as <-.
  repeat split.
Qed.

End SettlementClaims.

Section Fifo.

Lemma settledIds_snoc (l : list effect) (e : effect) :
  settledIds (l ++ [e]) = settledIds l ++ settledId e.
Proof. unfold settledIds. rewrite flat_map_app. simpl. rewrite app_nil_r. reflexivity. Qed.

Lemma StronglySorted_snoc (l : list nat) (x : nat) :
  StronglySorted lt l -> Forall (fun i => (i < x)%nat) l ->
  StronglySorted lt (l ++ [x]).
Proof.
  induction 1 as [|y l Hl IH Hy]; intros Hx; simpl.
  - repeat constructor.
  - inversion Hx; subst. constructor; [auto|].
    apply Forall_app; split; [exact Hy|]. repeat constructor. assumption.
Qed.

Lemma fifoInv_fresh (s s' : state) :
  log s' = log s -> queue s' = queue s -> (fresh s <= fresh s')%nat ->
  fifoInv s -> fifoInv s'.
Proof.
  unfold fifoInv. intros -> -> Hf [Hs Hb]. split; [exact Hs|].
  eapply Forall_impl; [exact Hb|]. simpl. intros. lia.
Qed.

(** Taking the head off the queue and settling it. *)
Lemma fifoInv_settle_head (s s' : state) (a : item) (e : effect)
    (q : list item) :
  queue s = a :: q -> queue s' = q -> log s' = log s ++ [e] ->
  settledId e = [id a] -> fresh s' = fresh s ->
  fifoInv s -> fifoInv s'.
Proof.
  unfold fifoInv. intros Hq -> -> He ->.
  rewrite settledIds_snoc, He, Hq, <- app_assoc. auto.
Qed.

Lemma fifoInv_handleFrame (p : parsed) (s : state) :
  fifoInv s -> fifoInv (handleFrame p s).
Proof.
  handleFrame_cases p s; intros H; try exact H;
    (eapply fifoInv_settle_head; [| | | | |exact H]; reflexivity).
Qed.

Lemma fifoInv_step (s : state) (e : event) (s' : state) :
  fifoInv s -> timelyFailures s [e] -> step s e = Some s' -> fifoInv s'.
Proof.
  intros Hs [Ht _]. destruct e as [t c p| |k ok|h|d]; simpl.
  - intros [= <-]. destruct Hs as [Hs Hb].
    assert (Hq : queue (enqueue t c p s)
                 = queue s ++ [{| id := fresh s; type := t; channel := c;
                                  payload := p |}]
                 /\ log (enqueue t c p s) = log s
                 /\ fresh (enqueue t c p s) = S (fresh s)).
    { unfold enqueue. repeat case_match; auto. }
    destruct Hq as (Hq & Hl & Hf). unfold fifoInv.
    rewrite Hq, Hl, Hf, map_app, app_assoc. simpl. split.
    + apply StronglySorted_snoc; assumption.
    + apply Forall_app; split; [|repeat constructor].
      eapply Forall_impl; [exact Hb|]. simpl. intros. lia.
  - destruct (processNextTimers s); [discriminate|]. intros [= <-].
    unfold processNext, failHead. cbn.
    destruct (processing s); [exact Hs|].
    destruct (queue s) as [|it q] eqn:Hq; [exact Hs|].
    destruct (buildRequest it) as [[buf|e]|] eqn:Hb; cbn.
    + unfold fifoInv in *. cbn. rewrite Hq, settledIds_snoc, app_nil_r.
      rewrite Hq in Hs. exact Hs.
    + eapply fifoInv_settle_head; [exact Hq| | | | |exact Hs]; cbn;
        rewrite ?Hq; reflexivity.
    + eapply fifoInv_settle_head; [exact Hq| | | | |exact Hs]; cbn;
        rewrite ?Hq; reflexivity.
  - destruct (pendingWrites s !! k) as [it|] eqn:Hk; [|discriminate].
    intros [= <-]. destruct ok.
    + eapply fifoInv_fresh; [| | |exact Hs]; cbn; auto.
    + destruct (queue s) as [|a q] eqn:Hq; [discriminate|].
      injection Ht as ->.
      eapply fifoInv_settle_head; [exact Hq| | | | |exact Hs]; cbn;
        rewrite ?Hq; reflexivity.
  - destruct (lookupTimer h (responseTimers s)); [|discriminate].
    intros [= <-]. unfold onResponseTimeout. cbn.
    destruct (queue s) as [|a q] eqn:Hq; [exact Hs|].
    destruct (decide _) as [Hid|_]; cbn.
    + eapply fifoInv_settle_head; [exact Hq| | | | |exact Hs]; cbn;
        rewrite ?Hq, ?Hid; reflexivity.
    + exact Hs.
  - destruct (forallb is_byteb d); [|discriminate]. intros [= <-].
    apply onSerialData_keeps; auto using fifoInv_handleFrame.
Qed.

Lemma fifoInv_run (tr : list event) (s s' : state) :
  fifoInv s -> timelyFailures s tr -> run s tr = Some s' -> fifoInv s'.
Proof.
  revert s. induction tr as [|e tr IH]; intros s Hs Ht; simpl.
  - intros [= <-]. exact Hs.
  - destruct Ht as [Hte Ht].
    destruct (step s e) as [s1|] eqn:H1; [|discriminate].
    apply IH; [|exact Ht].
    eapply fifoInv_step; [exact Hs| |exact H1]. split; [exact Hte|].
    rewrite H1. exact I.
Qed.

Lemma StronglySorted_lt_NoDup (l : list nat) :
  StronglySorted lt l -> NoDup l.
Proof.
  induction 1 as [|x l _ IH Hx]; constructor; [|exact IH].
  intros Hin. rewrite Forall_forall in Hx. specialize (Hx x Hin). lia.
Qed.

Lemma settleOrder_all (seen : list nat) (l : list effect) :
  NoDup (settledIds l) ->
  (forall i, i ∈ settledIds l -> i ∉ seen) ->
  settleOrder seen l = settledIds l.
Proof.
  revert seen. induction l as [|e l IH]; intros seen Hnd Hseen; [reflexivity|].
  assert (Hcall : forall it, settledIds (e :: l) = id it :: settledIds l ->
            (if decide (id it ∈ seen) then settleOrder seen l
             else id it :: settleOrder (id it :: seen) l)
            = id it :: settledIds l).
  { intros it Heq. rewrite Heq in Hnd, Hseen.
    apply NoDup_cons in Hnd as [Hnotin Hnd].
    destruct (decide (id it ∈ seen)) as [Hin|_].
    - exfalso. apply (Hseen (id it)); [left|exact Hin].
    - f_equal. apply IH; [exact Hnd|].
      intros i Hi [->|Hin]%elem_of_cons; [contradiction|].
      apply (Hseen i); [right; exact Hi|exact Hin]. }
  destruct e as [it buf|it v|it err]; simpl.
  - apply IH; assumption.
  - apply Hcall. reflexivity.
  - apply Hcall. reflexivity.
Qed.

(** When every failed write is reported while its request is still at the
    head of the queue, requests settle in the order they were enqueued, and
    none is settled twice: the calls of [resolve] and [reject] are made for
    strictly increasing identities. *)
Theorem fifo_when_failures_are_timely (tr : list event) (s : state) :
  timelyFailures init tr -> run init tr = Some s ->
  StronglySorted lt (settledIds (log s))
  /\ settleOrder [] (log s) = settledIds (log s).
Proof.
  intros Ht Hrun.
  assert (Hinv : fifoInv s).
  { eapply fifoInv_run; [|exact Ht|exact Hrun].
    split; constructor. }
  destruct Hinv as [Hs _].
  assert (Hsorted : StronglySorted lt (settledIds (log s))).
  { revert Hs. generalize (settledIds (log s)) as l, (map id (queue s)) as r.
    induction l as [|x l IH]; intros r H; [constructor|].
    simpl in H. inversion H as [|? ? Hl Hx]; subst.
    constructor; [eapply IH; exact Hl|].
    apply Forall_app in Hx as [Hx _]. exact Hx. }
  split; [exact Hsorted|].
  apply settleOrder_all.
  - apply StronglySorted_lt_NoDup, Hsorted.
  - intros i _ Hin. inversion Hin.
Qed.

End Fifo.

(** * Further properties of the codec *)

Section CodecMore.

(** X1. The checksum of a buffer is a byte, it makes the sum of the buffer
    and itself a multiple of 256, and it is the only byte that does. *)
Theorem checksum_unique (b : list Z) :
  is_buffer b ->
  is_byte (checksum b)
  /\ (sumZ b + checksum b) mod 256 = 0
  /\ forall c, is_byte c -> (sumZ b + c) mod 256 = 0 -> c = checksum b.
Proof.
  intros Hb. pose proof (checksum_byte b Hb) as Hc.
  pose proof (checksum_closes b Hb) as Hz.
  split; [exact Hc|]. split; [exact Hz|].
  intros c Hcb Hcz. unfold is_byte in *.
  apply Z.mod_divide in Hz; [|lia]. apply Z.mod_divide in Hcz; [|lia].
  destruct Hz as [k Hk]. destruct Hcz as [k' Hk']. lia.
Qed.

Lemma checksum_unique_witness :
  is_byte (checksum [0xAA; 0x04; 0x4E; 0x00; 0x01])
  /\ (sumZ [0xAA; 0x04; 0x4E; 0x00; 0x01]
      + checksum [0xAA; 0x04; 0x4E; 0x00; 0x01]) mod 256 = 0
  /\ forall c, is_byte c ->
       (sumZ [0xAA; 0x04; 0x4E; 0x00; 0x01] + c) mod 256 = 0 ->
       c = checksum [0xAA; 0x04; 0x4E; 0x00; 0x01].
Proof.
  apply (checksum_unique [0xAA; 0x04; 0x4E; 0x00; 0x01]).
  repeat constructor; unfold is_byte; lia.
Defined.


Lemma allBytes_spec (b : Z) : is_byte b -> In b allBytes.
Proof.
  intros Hb. unfold is_byte in Hb. unfold allBytes.
  apply in_map_iff. exists (Z.to_nat b). split; [lia|].
  apply in_seq. lia.
Qed.


Lemma decodesExactly_all :
  forallb (fun h => forallb (decodesExactly h) allBytes) allBytes = true.
Proof. vm_compute. reflexivity. Qed.

Lemma decode_exact (high low : Z) :
  is_byte high -> is_byte low ->
  bytesToChannel high low = 0
  \/ (1 <= bytesToChannel high low <= 15
      /\ channelToBytes (bytesToChannel high low) = Ok (high, low)).
Proof.
  intros Hh Hl. pose proof decodesExactly_all as Hall.
  rewrite forallb_forall in Hall.
  specialize (Hall high (allBytes_spec high Hh)).
  rewrite forallb_forall in Hall.
  specialize (Hall low (allBytes_spec low Hl)).
  unfold decodesExactly in Hall.
  destruct (Z.eqb_spec (bytesToChannel high low) 0) as [Hz|Hz]; [left; exact Hz|].
  right. simpl in Hall.
  apply andb_true_iff in Hall as [Hrange Henc].
  apply andb_true_iff in Hrange as [H1 H15].
  split; [lia|].
  destruct (channelToBytes (bytesToChannel high low)) as [[h l]|e];
    [|discriminate].
  apply andb_true_iff in Henc as [->%Z.eqb_eq ->%Z.eqb_eq]. reflexivity.
Qed.

(** X2. [bytesToChannel] is the exact inverse of [channelToBytes] on
    bytes: its result is 0 or a channel in 1..15, and a channel it returns
    encodes to the very two bytes it was given. Two bytes with no bit, with
    several bits or with bit 15 set decode to 0. *)
Theorem bytesToChannel_exact (high low : Z) :
  is_byte high -> is_byte low ->
  0 <= bytesToChannel high low <= 15
  /\ (bytesToChannel high low <> 0 ->
      channelToBytes (bytesToChannel high low) = Ok (high, low)).
Proof.
  intros Hh Hl.
  destruct (decode_exact high low Hh Hl) as [Hz|[Hr He]].
  - rewrite Hz. split; [lia|congruence].
  - split; [lia|]. intros _. exact He.
Qed.

Lemma bytesToChannel_exact_witness :
  0 <= bytesToChannel 0x02 0x00 <= 15
  /\ (bytesToChannel 0x02 0x00 <> 0 ->
      channelToBytes (bytesToChannel 0x02 0x00) = Ok (0x02, 0x00)).
Proof. apply (bytesToChannel_exact 0x02 0x00); unfold is_byte; lia. Defined.

(** The test [word & (1 << i)] of [bitmapToChannels] reads bit [i]. *)
Lemma land_bit (w : Z) (i : nat) :
  (Z.land w (Z.shiftl 1 (Z.of_nat i)) =? 0) = negb (Z.testbit w (Z.of_nat i)).
Proof.
  rewrite Z.shiftl_1_l.
  destruct (Z.testbit w (Z.of_nat i)) eqn:Hb; simpl.
  - apply Z.eqb_neq. intros H0.
    assert (Ht : Z.testbit (Z.land w (2 ^ Z.of_nat i)) (Z.of_nat i) = true).
    { rewrite Z.land_spec, Hb, Z.pow2_bits_true by lia. reflexivity. }
    rewrite H0, Z.bits_0 in Ht. discriminate.
  - apply Z.eqb_eq. apply Z.bits_inj'. intros n Hn.
    rewrite Z.land_spec, Z.bits_0.
    destruct (Z.eq_dec n (Z.of_nat i)) as [->|Hne].
    + rewrite Hb. reflexivity.
    + rewrite Z.pow2_bits_false by lia. apply andb_false_r.
Qed.


Lemma channelOfBit_In (w : Z) (a n : nat) (x : Z) :
  In x (flat_map (channelOfBit w) (seq a n))
  <-> Z.of_nat a < x <= Z.of_nat (a + n) /\ Z.testbit w (x - 1) = true.
Proof.
  rewrite in_flat_map. split.
  - intros (i & Hi & Hx). apply in_seq in Hi. unfold channelOfBit in Hx.
    rewrite land_bit in Hx.
    destruct (Z.testbit w (Z.of_nat i)) eqn:Hb; simpl in Hx; [|contradiction].
    destruct Hx as [<-|[]]. split; [lia|].
    replace (Z.of_nat i + 1 - 1) with (Z.of_nat i) by lia. exact Hb.
  - intros [Hr Hb]. exists (Z.to_nat (x - 1)). split; [apply in_seq; lia|].
    unfold channelOfBit. rewrite land_bit.
    replace (Z.of_nat (Z.to_nat (x - 1))) with (x - 1) by lia.
    rewrite Hb. simpl. left. lia.
Qed.

Lemma channelOfBit_sorted (w : Z) (n a : nat) :
  StronglySorted Z.lt (flat_map (channelOfBit w) (seq a n)).
Proof.
  revert a. induction n as [|n IH]; intros a; simpl; [constructor|].
  unfold channelOfBit at 1.
  destruct (Z.land w _ =? 0); simpl; [apply IH|].
  constructor; [apply IH|].
  apply Forall_forall. intros x Hx%list_elem_of_In.
  apply channelOfBit_In in Hx. lia.
Qed.

(** X3. [bitmapToChannels] lists, in strictly ascending order, exactly the
    channels [c] in 1..15 whose bit [c - 1] is set in [(high << 8) | low];
    bit 15 is ignored. *)
Theorem bitmapToChannels_spec (high low : Z) :
  is_byte high -> is_byte low ->
  StronglySorted Z.lt (bitmapToChannels high low)
  /\ forall c,
       In c (bitmapToChannels high low)
       <-> 1 <= c <= 15
           /\ Z.testbit (Z.lor (Z.shiftl high 8) low) (c - 1) = true.
Proof.
  unfold bitmapToChannels. fold (channelOfBit (Z.lor (Z.shiftl high 8) low)).
  change (fun i : nat =>
            if Z.land (Z.lor (Z.shiftl high 8) low) (Z.shiftl 1 (Z.of_nat i)) =? 0
            then [] else [Z.of_nat i + 1])
    with (channelOfBit (Z.lor (Z.shiftl high 8) low)).
  intros _ _. split; [apply channelOfBit_sorted|].
  intros c. rewrite channelOfBit_In. simpl Z.of_nat. intuition lia.
Qed.

Lemma bitmapToChannels_spec_witness :
  StronglySorted Z.lt (bitmapToChannels 0x81 0x05)
  /\ forall c,
       In c (bitmapToChannels 0x81 0x05)
       <-> 1 <= c <= 15
           /\ Z.testbit (Z.lor (Z.shiftl 0x81 8) 0x05) (c - 1) = true.
Proof. apply (bitmapToChannels_spec 0x81 0x05); unfold is_byte; lia. Defined.

(** X4. The two decoders agree: when [bytesToChannel] finds the single
    channel [c] in two bytes, [bitmapToChannels] returns the list [[c]]. *)
Theorem bitmapToChannels_single (high low : Z) :
  is_byte high -> is_byte low -> bytesToChannel high low <> 0 ->
  bitmapToChannels high low = [bytesToChannel high low].
Proof.
  intros Hh Hl Hne.
  destruct (decode_exact high low Hh Hl) as [Hz|[Hr He]]; [contradiction|].
  set (c := bytesToChannel high low) in *.
  assert (H : c = 1 \/ c = 2 \/ c = 3 \/ c = 4 \/ c = 5 \/ c = 6 \/ c = 7
              \/ c = 8 \/ c = 9 \/ c = 10 \/ c = 11 \/ c = 12 \/ c = 13
              \/ c = 14 \/ c = 15) by lia.
  clearbody c.
  repeat (destruct H as [->|H]); try subst c;
    vm_compute in He; injection He as <- <-; reflexivity.
Qed.

Lemma bitmapToChannels_single_witness :
  bitmapToChannels 0x00 0x40 = [bytesToChannel 0x00 0x40].
Proof.
  apply (bitmapToChannels_single 0x00 0x40); unfold is_byte; try lia.
  vm_compute. discriminate.
Defined.

(** X5. For a channel in 1..15 and any integer payload byte,
    [buildEasySend] returns a frame of seven bytes that starts with
    [0xAA] and that [parseFrame] reads back as the command [0x4C] with the
    two channel bytes, which decode to the channel, and the payload byte
    truncated to eight bits. *)
Theorem buildEasySend_parse (c p : Z) :
  1 <= c <= 15 ->
  exists high low frame,
    buildEasySend c p = Ok frame
    /\ length frame = 7%nat
    /\ frame !! 0%nat = Some HEADER
    /\ parseFrame frame
       = Some {| cmd := Some CMD_EASY_SEND;
                 Protocol.payload := [high; low; p mod 256] |}
    /\ bytesToChannel high low = c.
Proof.
  intros Hc.
  assert (Hp : is_byte (p mod 256)) by (apply Z.mod_pos_bound; lia).
  assert (Hbuild : forall h l, is_byte h -> is_byte l ->
            buildFrame CMD_EASY_SEND [h; l; p]
            = frameOf HEADER CMD_EASY_SEND [h; l; p mod 256]).
  { intros h l Hh Hl.
    rewrite <- buildFrame_frameOf;
      [|unfold is_byte, CMD_EASY_SEND; lia
       |constructor; [assumption|constructor; [assumption|
          constructor; [assumption|constructor]]]
       |simpl; lia].
    unfold buildFrame, Buffer_from. simpl map.
    rewrite Z.mod_mod by lia. reflexivity. }
  assert (H : c = 1 \/ c = 2 \/ c = 3 \/ c = 4 \/ c = 5 \/ c = 6 \/ c = 7
              \/ c = 8 \/ c = 9 \/ c = 10 \/ c = 11 \/ c = 12 \/ c = 13
              \/ c = 14 \/ c = 15) by lia.
  repeat (destruct H as [->|H]); try subst c;
    (eexists; eexists; eexists; unfold buildEasySend;
     match goal with
     | |- context [channelToBytes ?n] =>
         let r := eval vm_compute in (channelToBytes n) in
         change (channelToBytes n) with r
     end;
     cbv beta iota;
     (split; [reflexivity|]);
     rewrite Hbuild by (unfold is_byte; lia);
     (split; [apply frameOf_length|]);
     (split; [reflexivity|]);
     (split; [apply parseFrame_frameOf|reflexivity])).
Qed.

Lemma buildEasySend_parse_witness :
  exists high low frame,
    buildEasySend 9 0x120 = Ok frame
    /\ length frame = 7%nat
    /\ frame !! 0%nat = Some HEADER
    /\ parseFrame frame
       = Some {| cmd := Some CMD_EASY_SEND;
                 Protocol.payload := [high; low; 0x120 mod 256] |}
    /\ bytesToChannel high low = 9.
Proof. apply (buildEasySend_parse 9 0x120). lia. Defined.

End CodecMore.

(** * Properties of the status store *)

Section StoreMore.

#[local] Instance Zle_antisymm : AntiSymm (=) Z.le.
Proof. intros x y ? ?. lia. Qed.
#[local] Instance Zle_total : Total Z.le.
Proof. intros x y. lia. Qed.

Lemma setLearnedChannels_bitmap (high low : Z) (st : State.store) :
  State.learnedChannels
    (State.setLearnedChannels (bitmapToChannels high low) st)
  = bitmapToChannels high low.
Proof.
  simpl.
  apply (StronglySorted_unique Z.le).
  - apply StronglySorted_merge_sort; apply _.
  - assert (Hs : StronglySorted Z.lt (bitmapToChannels high low)).
    { unfold bitmapToChannels. apply channelOfBit_sorted. }
    clear -Hs. induction Hs as [|x l _ IH Hx]; constructor; [exact IH|].
    eapply Forall_impl; [exact Hx|]. simpl. intros. lia.
  - apply merge_sort_Permutation.
Qed.

(** X6. [setLearnedChannels] stores the channels in ascending order, as a
    rearrangement of its argument, and does not touch the statuses; a list
    that [bitmapToChannels] returned is stored as it is. *)
Theorem setLearnedChannels_sorted (channels : list Z) (st : State.store) :
  StronglySorted Z.le (State.learnedChannels (State.setLearnedChannels channels st))
  /\ State.learnedChannels (State.setLearnedChannels channels st) ≡ₚ channels
  /\ State.channelStatus (State.setLearnedChannels channels st)
     = State.channelStatus st
  /\ forall high low,
       channels = bitmapToChannels high low ->
       State.learnedChannels (State.setLearnedChannels channels st) = channels.
Proof.
  simpl. split; [apply StronglySorted_merge_sort; apply _|].
  split; [apply merge_sort_Permutation|]. split; [reflexivity|].
  intros high low ->.
  apply (setLearnedChannels_bitmap high low st).
Qed.

Lemma getFullState_fold (cs : gmap Z State.status) (l : list Z)
    (acc : gmap Z State.status) (ch : Z) :
  fold_left
    (fun status c =>
       match cs !! c with
       | Some s => <[c := s]> status
       | None => status
       end) l acc !! ch
  = if decide (ch ∈ l) then
      match cs !! ch with Some s => Some s | None => acc !! ch end
    else acc !! ch.
Proof.
  revert acc. induction l as [|c l IH]; intros acc; cbn [fold_left].
  - rewrite decide_False by apply not_elem_of_nil. reflexivity.
  - rewrite IH.
    destruct (decide (ch ∈ l)) as [Hin|Hnin].
    + rewrite decide_True by (right; exact Hin).
      destruct (cs !! ch) eqn:Hch; [reflexivity|].
      destruct (cs !! c) eqn:Hc; [|reflexivity].
      rewrite lookup_insert_ne by congruence. reflexivity.
    + destruct (decide (ch = c)) as [->|Hne].
      * rewrite decide_True by left.
        destruct (cs !! c) eqn:Hc; [apply lookup_insert_eq|reflexivity].
      * rewrite decide_False by (intros [?|?]%elem_of_cons; congruence).
        destruct (cs !! c); [|reflexivity].
        rewrite lookup_insert_ne by congruence. reflexivity.
Qed.

(** X7. [getFullState] returns the learned channels and, of the statuses
    the store holds, those of learned channels only: a status pushed for a
    channel that is not learned is kept but not shown. *)
Theorem getFullState_learned_only (st : State.store) (ch : Z) :
  (StateRead.getFullState st).1 = State.learnedChannels st
  /\ (StateRead.getFullState st).2 !! ch
     = if decide (ch ∈ State.learnedChannels st)
       then StateRead.getChannelStatus ch st
       else None.
Proof.
  split; [reflexivity|]. unfold StateRead.getFullState. simpl.
  rewrite getFullState_fold. unfold StateRead.getChannelStatus.
  destruct (decide _); [|apply lookup_empty].
  destruct (State.channelStatus st !! ch); [reflexivity|apply lookup_empty].
Qed.

End StoreMore.

(** * Further properties of the inbound path *)

Section InboundMore.

(** What [handleFrame] does with an [easy_ack] that names a channel. *)
Lemma handleFrame_ack_store (s : state) (high low b : Z) (c : Z) :
  bytesToChannel high low = c -> 1 <= c <= 15 ->
  store (handleFrame {| cmd := Some RSP_EASY_ACK;
                        Protocol.payload := [high; low; b] |} s)
  = State.setChannelStatus c (Some b) (store s).
Proof.
  intros Hc Hr.
  destruct s as [q rb rt pr st pn rts pw fr lg].
  unfold handleFrame, clearResponseTimer.
  destruct (decide _) as [Hx|_]; [discriminate Hx|].
  destruct (decide _) as [_|Hx]; [|exfalso; apply Hx; reflexivity].
  cbn -[bytesToChannel State.setChannelStatus Z.leb].
  rewrite Hc.
  destruct (Z.leb_spec 1 c); [|lia]. destruct (Z.leb_spec c 15); [|lia].
  cbn. destruct rt; destruct q as [|[i [] ch py] q]; reflexivity.
Qed.

(** X8. An [easy_ack] frame for a channel in 1..15, delivered whole to a
    dispatcher whose read buffer is empty, puts the status byte and its
    drive semantic into the store for that channel, leaves the other
    channels and the learned channels as they were, and leaves the buffer
    empty: whatever request is queued or in flight. *)
Theorem ack_updates_store (s : state) (c b : Z) :
  readBuffer s = [] -> 1 <= c <= 15 -> is_byte b ->
  exists high low,
    channelToBytes c = Ok (high, low)
    /\ let s' := onSerialData (buildFrame RSP_EASY_ACK [high; low; b]) s in
       StateRead.getChannelStatus c (store s')
       = Some {| State.statusByte := Some b;
                 State.sem := statusByteToDriveSemantic (Some b) |}
       /\ (forall c', c' <> c ->
             StateRead.getChannelStatus c' (store s')
             = StateRead.getChannelStatus c' (store s))
       /\ StateRead.getLearnedChannels (store s')
          = StateRead.getLearnedChannels (store s)
       /\ readBuffer s' = [].
Proof.
  intros Hrb Hc Hb.
  assert (Henc : exists high low,
             channelToBytes c = Ok (high, low) /\ is_byte high /\ is_byte low
             /\ bytesToChannel high low = c).
  { assert (H : c = 1 \/ c = 2 \/ c = 3 \/ c = 4 \/ c = 5 \/ c = 6 \/ c = 7
                \/ c = 8 \/ c = 9 \/ c = 10 \/ c = 11 \/ c = 12 \/ c = 13
                \/ c = 14 \/ c = 15) by lia.
    repeat (destruct H as [->|H]); try subst c;
      (eexists; eexists; split; [reflexivity|];
       split; [split; [apply Z.leb_le|apply Z.ltb_lt]; reflexivity|];
       split; [split; [apply Z.leb_le|apply Z.ltb_lt]; reflexivity|];
       reflexivity). }
  destruct Henc as (high & low & Henc & Hh & Hl & Hdec).
  exists high, low. split; [exact Henc|].
  rewrite onSerialData_frame;
    [|exact Hrb|unfold is_byte, RSP_EASY_ACK; lia
     |constructor; [assumption|constructor; [assumption|
        constructor; [assumption|constructor]]]
     |simpl; lia].
  cbv zeta. rewrite handleFrame_readBuffer.
  rewrite (handleFrame_ack_store s high low b c Hdec Hc).
  unfold StateRead.getChannelStatus, StateRead.getLearnedChannels. simpl.
  split; [apply lookup_insert_eq|].
  split; [|split; [reflexivity|exact Hrb]].
  intros c' Hne. apply lookup_insert_ne. congruence.
Qed.

Lemma ack_updates_store_witness :
  exists high low,
    channelToBytes 12 = Ok (high, low)
    /\ let s' := onSerialData (buildFrame RSP_EASY_ACK [high; low; 0x0B])
                   (easyCheck init) in
       StateRead.getChannelStatus 12 (store s')
       = Some {| State.statusByte := Some 0x0B;
                 State.sem := statusByteToDriveSemantic (Some 0x0B) |}
       /\ (forall c', c' <> 12 ->
             StateRead.getChannelStatus c' (store s')
             = StateRead.getChannelStatus c' (store (easyCheck init)))
       /\ StateRead.getLearnedChannels (store s')
          = StateRead.getLearnedChannels (store (easyCheck init))
       /\ readBuffer s' = [].
Proof.
  apply (ack_updates_store (easyCheck init) 12 0x0B);
    [reflexivity|lia|unfold is_byte; lia].
Defined.

(** X9. A frame of consistent length whose checksum is wrong, delivered
    whole to a dispatcher whose read buffer is empty, is taken off the
    buffer and changes nothing: no store update, no timer cleared, no
    request settled. *)
Theorem corrupt_frame_dropped (s : state) (f : list Z) (len : Z) :
  readBuffer s = [] -> is_buffer f ->
  f !! 1%nat = Some len -> Z.of_nat (length f) = 2 + len ->
  parseFrame f = None ->
  onSerialData f s = s.
Proof.
  intros Hrb Hf Hlen Htot Hparse.
  assert (Hl : is_byte len).
  { eapply Forall_forall; [exact Hf|]. eapply list_elem_of_lookup_2, Hlen. }
  unfold is_byte in Hl.
  assert (Hs : set_readBuffer [] s = s)
    by (destruct s; cbn in Hrb; subst; reflexivity).
  unfold onSerialData. rewrite Hrb. simpl app.
  change (readBuffer (set_readBuffer f s)) with f.
  destruct (length f) as [|n] eqn:Hn; [lia|].
  rewrite onSerialData_loop_unfold. unfold nextFrame.
  change (readBuffer (set_readBuffer f s)) with f.
  rewrite Hn.
  destruct (Nat.ltb_spec (S n) 2) as [|_]; [lia|].
  rewrite Hlen. cbv beta iota zeta.
  destruct (Z.ltb_spec (Z.of_nat (S n)) (2 + len)) as [|_]; [lia|].
  assert (Hframe : subarray f 0 (2 + len) = f).
  { unfold subarray. change (Z.to_nat 0) with 0%nat. rewrite drop_0.
    apply take_ge. lia. }
  assert (Hrest : subarray_from f (2 + len) = []).
  { unfold subarray_from. apply drop_ge. lia. }
  rewrite Hframe, Hrest, Hparse, set_readBuffer_twice, Hs.
  destruct n; [reflexivity|].
  rewrite onSerialData_loop_unfold. unfold nextFrame. rewrite Hrb. reflexivity.
Qed.

Lemma corrupt_frame_dropped_witness :
  onSerialData [0xAA; 0x05; 0x4D; 0x00; 0x01; 0x01; 0x03]
    (easyInfo (Some 1) init)
  = easyInfo (Some 1) init.
Proof.
  apply (corrupt_frame_dropped (easyInfo (Some 1) init)
           [0xAA; 0x05; 0x4D; 0x00; 0x01; 0x01; 0x03] 5).
  - reflexivity.
  - repeat constructor; unfold is_byte; lia.
  - reflexivity.
  - reflexivity.
  - vm_compute. reflexivity.
Defined.

End InboundMore.

Section InboundQueue.

(** What [handleFrame] does with an [easy_confirm] when an [easy_check]
    heads the queue. *)
Lemma handleFrame_confirm_check (s : state) (high low : Z) (it : item)
    (rest : list item) :
  queue s = it :: rest -> type it = easy_check ->
  let channels := bitmapToChannels high low in
  let s' := handleFrame {| cmd := Some RSP_EASY_CONFIRM;
                           Protocol.payload := [high; low] |} s in
  store s' = State.setLearnedChannels channels (store s)
  /\ queue s' = rest
  /\ log s' = log s ++ [Resolve it (Some channels)]
  /\ processing s' = false
  /\ processNextTimers s' = S (processNextTimers s)
  /\ responseTimer s' = None
  /\ pendingWrites s' = pendingWrites s.
Proof.
  destruct s as [q rb rt pr st pn rts pw fr lg]. cbn [queue].
  intros -> Hty. destruct it as [i ty ch py]. cbn in Hty. subst ty.
  unfold handleFrame, clearResponseTimer.
  destruct (decide _) as [_|Hx]; [|exfalso; apply Hx; reflexivity].
  cbn -[bitmapToChannels State.setLearnedChannels].
  destruct rt; cbn -[bitmapToChannels State.setLearnedChannels];
    repeat split.
Qed.

(** X10. An [easy_confirm] frame delivered whole (read buffer empty)
    while an [easy_check] heads the queue: the store gets the channels of
    the bitmap, the request is taken off the queue and resolved with the
    same list, the response timer is cleared, [processing] is reset and
    [processNext] is scheduled; nothing is written by this. *)
Theorem confirm_resolves_check (s : state) (high low : Z) (it : item)
    (rest : list item) :
  readBuffer s = [] -> is_byte high -> is_byte low ->
  queue s = it :: rest -> type it = easy_check ->
  let s' := onSerialData (buildFrame RSP_EASY_CONFIRM [high; low]) s in
  StateRead.getLearnedChannels (store s') = bitmapToChannels high low
  /\ queue s' = rest
  /\ log s' = log s ++ [Resolve it (Some (bitmapToChannels high low))]
  /\ processing s' = false
  /\ processNextTimers s' = S (processNextTimers s)
  /\ responseTimer s' = None
  /\ pendingWrites s' = pendingWrites s.
Proof.
  intros Hrb Hh Hl Hq Hty. cbv zeta.
  rewrite onSerialData_frame;
    [|exact Hrb|unfold is_byte, RSP_EASY_CONFIRM; lia
     |constructor; [assumption|constructor; [assumption|constructor]]
     |simpl; lia].
  destruct (handleFrame_confirm_check s high low it rest Hq Hty)
    as (Hst & Hrest).
  split; [|exact Hrest].
  rewrite Hst. unfold StateRead.getLearnedChannels.
  apply setLearnedChannels_bitmap.
Qed.

Lemma confirm_resolves_check_witness :
  let s := easyInfo (Some 2) (easyCheck init) in
  let it := {| id := 0; type := easy_check; channel := None;
               payload := None |} in
  let s' := onSerialData (buildFrame RSP_EASY_CONFIRM [0x40; 0x05]) s in
  StateRead.getLearnedChannels (store s') = bitmapToChannels 0x40 0x05
  /\ queue s' = [{| id := 1; type := easy_info; channel := Some 2;
                    payload := None |}]
  /\ log s' = log s ++ [Resolve it (Some (bitmapToChannels 0x40 0x05))]
  /\ processing s' = false
  /\ processNextTimers s' = S (processNextTimers s)
  /\ responseTimer s' = None
  /\ pendingWrites s' = pendingWrites s.
Proof.
  apply (confirm_resolves_check (easyInfo (Some 2) (easyCheck init))
           0x40 0x05); try reflexivity; unfold is_byte; lia.
Defined.

Lemma handleFrame_queue_log (p : parsed) (s : state) :
  pendingWrites (handleFrame p s) = pendingWrites s
  /\ fresh (handleFrame p s) = fresh s
  /\ ((queue (handleFrame p s) = queue s /\ log (handleFrame p s) = log s)
      \/ exists a v rest,
           queue s = a :: rest /\ queue (handleFrame p s) = rest
           /\ log (handleFrame p s) = log s ++ [Resolve a v]).
Proof.
  handleFrame_cases p s; (split; [reflexivity|]); (split; [reflexivity|]);
    first [ left; split; reflexivity
          | right; eexists; eexists; eexists; repeat split ].
Qed.

(** X11. Whatever bytes arrive, [onSerialData] only resolves: it takes
    some number of requests off the front of the queue and resolves them in
    queue order; it rejects nothing, writes nothing to the transport and
    leaves the rest of the queue in place. *)
Theorem onSerialData_resolves_front (data : list Z) (s : state) :
  exists values : list (option (list Z)),
    (length values <= length (queue s))%nat
    /\ queue (onSerialData data s) = drop (length values) (queue s)
    /\ log (onSerialData data s)
       = log s ++ zip_with Resolve (take (length values) (queue s)) values
    /\ pendingWrites (onSerialData data s) = pendingWrites s.
Proof.
  apply (onSerialData_keeps
           (fun s' => exists values : list (option (list Z)),
              (length values <= length (queue s))%nat
              /\ queue s' = drop (length values) (queue s)
              /\ log s' = log s
                   ++ zip_with Resolve (take (length values) (queue s)) values
              /\ pendingWrites s' = pendingWrites s)).
  - intros b s' H. exact H.
  - intros p s' (vs & Hlen & Hq & Hl & Hw).
    destruct (handleFrame_queue_log p s') as (Hw' & _ & Hcase).
    destruct Hcase as [[Hq' Hl']|(a & v & rest & Hqa & Hq' & Hl')].
    + exists vs. rewrite Hq', Hl', Hw'. auto.
    + assert (Hn : queue s !! length vs = Some a).
      { rewrite <- (Nat.add_0_r (length vs)), <- lookup_drop, <- Hq, Hqa.
        reflexivity. }
      pose proof (lookup_lt_Some _ _ _ Hn) as Hlt.
      exists (vs ++ [v]). rewrite length_app. simpl length.
      replace (length vs + 1)%nat with (S (length vs)) by lia.
      split; [lia|]. split; [|split].
      * rewrite Hq'. replace (S (length vs)) with (length vs + 1)%nat by lia.
        rewrite <- drop_drop, <- Hq, Hqa. reflexivity.
      * rewrite Hl', Hl, (take_S_r _ _ _ Hn), <- app_assoc. f_equal.
        rewrite zip_with_app by (rewrite length_take; lia). reflexivity.
      * congruence.
  - exists []. simpl. rewrite drop_0, app_nil_r. repeat split; lia.
Qed.


Lemma nextFrame_None (s : state) :
  nextFrame s = None -> noCompleteFrame (readBuffer s).
Proof.
  unfold nextFrame, noCompleteFrame.
  destruct (Nat.ltb_spec (length (readBuffer s)) 2) as [|H2]; [auto|].
  destruct (readBuffer s !! 1%nat) as [len|] eqn:Hlen.
  - destruct (Z.ltb_spec (Z.of_nat (length (readBuffer s))) (2 + len));
      [eauto|].
    destruct (parseFrame _); discriminate.
  - apply lookup_ge_None in Hlen. lia.
Qed.

Lemma onSerialData_loop_done (f : nat) (s : state) :
  is_buffer (readBuffer s) -> (length (readBuffer s) <= f)%nat ->
  nextFrame (onSerialData_loop f s) = None.
Proof.
  revert s. induction f as [|f IH]; intros s Hb Hf.
  - simpl. unfold nextFrame.
    destruct (Nat.ltb_spec (length (readBuffer s)) 2); [reflexivity|lia].
  - rewrite onSerialData_loop_unfold.
    destruct (nextFrame s) as [s'|] eqn:Hn; [|exact Hn].
    destruct (nextFrame_shrinks s s' Hb Hn) as [Hb' Hlen].
    apply IH; [exact Hb'|lia].
Qed.

Lemma step_readBuffer (s : state) (e : event) (s' : state) :
  notData e -> step s e = Some s' -> readBuffer s' = readBuffer s.
Proof.
  destruct e as [t c p| |k ok|h|d]; simpl; try contradiction; intros _.
  - intros [= <-]. unfold enqueue. repeat case_match; reflexivity.
  - destruct (processNextTimers s); [discriminate|]. intros [= <-].
    unfold processNext, failHead. cbn. repeat case_match; reflexivity.
  - destruct (pendingWrites s !! k); [|discriminate]. intros [= <-].
    destruct ok; reflexivity.
  - destruct (lookupTimer h (responseTimers s)); [|discriminate].
    intros [= <-]. unfold onResponseTimeout. cbn.
    repeat case_match; reflexivity.
Qed.

(** X12. In every run of the dispatcher the read buffer holds bytes only,
    never a complete frame, and so never more than 256 bytes: every frame
    is taken off the buffer by the delivery that completes it. *)
Theorem readBuffer_bounded (tr : list event) (s : state) :
  run init tr = Some s ->
  is_buffer (readBuffer s)
  /\ noCompleteFrame (readBuffer s)
  /\ (length (readBuffer s) <= 256)%nat.
Proof.
  intros Hrun.
  assert (H : is_buffer (readBuffer s) /\ noCompleteFrame (readBuffer s)).
  { revert Hrun.
    apply (run_keeps (fun s => is_buffer (readBuffer s)
                               /\ noCompleteFrame (readBuffer s))).
    - clear. intros s e s' [Hb Hn] Hstep.
      destruct e as [t c p| |k ok|h|d];
        try (apply step_readBuffer in Hstep as ->; [split; assumption|exact I]).
      simpl in Hstep.
      destruct (forallb is_byteb d) eqn:Hd; [|discriminate].
      injection Hstep as <-.
      assert (Hbd : is_buffer (readBuffer s ++ d)).
      { apply Forall_app. split; [exact Hb|].
        apply Forall_forall. intros x Hx. rewrite forallb_forall in Hd.
        apply is_byteb_spec, Hd, list_elem_of_In, Hx. }
      unfold onSerialData. cbn [readBuffer set_readBuffer]. split.
      + apply onSerialData_loop_shrinks. exact Hbd.
      + apply nextFrame_None, onSerialData_loop_done; [exact Hbd|reflexivity].
    - split; [constructor|left; simpl; lia]. }
  destruct H as [Hb Hn]. split; [exact Hb|]. split; [exact Hn|].
  destruct Hn as [Hlt|(len & Hlen & Hlt)]; [lia|].
  assert (Hl : is_byte len).
  { eapply Forall_forall; [exact Hb|]. eapply list_elem_of_lookup_2, Hlen. }
  unfold is_byte in Hl. lia.
Qed.

Lemma readBuffer_bounded_witness :
  exists s,
    run init [SerialData [0xAA; 0x05; 0x4D]; SerialData [0x00; 0x01];
              SerialData [0x01; 0x02; 0xAA]] = Some s
    /\ is_buffer (readBuffer s)
    /\ noCompleteFrame (readBuffer s)
    /\ (length (readBuffer s) <= 256)%nat.
Proof.
  destruct (run init [SerialData [0xAA; 0x05; 0x4D]; SerialData [0x00; 0x01];
                      SerialData [0x01; 0x02; 0xAA]]) as [s|] eqn:Hrun;
    [|vm_compute in Hrun; discriminate Hrun].
  exists s. split; [reflexivity|].
  exact (readBuffer_bounded _ s Hrun).
Defined.

End InboundQueue.

(** * Starting and stopping *)

Section LifecycleMore.

Import Lifecycle.

(** X13. [stop()] rejects exactly the queued requests, in queue order, and
    leaves an empty queue, an empty read buffer, no response timer and
    [processing] reset; the callbacks already handed to the event loop
    (pending writes, [processNext] timers) and the store stay. A second
    [stop()] rejects nothing and changes nothing. *)
Theorem stop_twice (w : world) :
  let w1 := (stop w).1 in
  (stop w).2 = queue (disp w)
  /\ queue (disp w1) = [] /\ readBuffer (disp w1) = []
  /\ responseTimer (disp w1) = None /\ processing (disp w1) = false
  /\ pendingWrites (disp w1) = pendingWrites (disp w)
  /\ processNextTimers (disp w1) = processNextTimers (disp w)
  /\ store (disp w1) = store (disp w)
  /\ log (disp w1) = log (disp w)
  /\ stop w1 = (w1, []).
Proof.
  destruct w as [[q rb rt pr st pn rts pw fr lg] [n|]];
    unfold stop, stopDispatcher, clearResponseTimer; cbn;
    destruct rt; cbn; repeat split.
Qed.

(** X14. After [stop()] the bytes the port delivers no longer reach the
    dispatcher, but the dispatcher still takes requests: a valid request
    enqueued after [stop()] is alone on the queue, [processNext] is
    scheduled for it, and when it runs the frame of the request is written
    to the transport. *)
Theorem stop_then_enqueue (w : world) (data : list Z) (t : req_type)
    (c p : option Z) :
  validRequest t c p ->
  let w1 := (stop w).1 in
  let it := {| id := fresh (disp w); type := t; channel := c;
               payload := p |} in
  deliver data w1 = w1
  /\ queue (enqueue t c p (disp w1)) = [it]
  /\ processNextTimers (enqueue t c p (disp w1))
     = S (processNextTimers (disp w))
  /\ exists buf,
       buildRequest it = Some (Ok buf)
       /\ log (processNext (enqueue t c p (disp w1)))
          = log (disp w) ++ [SerialWrite it buf].
Proof.
  intros Hvalid.
  destruct (validItem_build {| id := fresh (disp w); type := t; channel := c;
                               payload := p |} Hvalid) as [buf Hbuf].
  destruct w as [[q rb rt pr st pn rts pw fr lg] [n|]];
    unfold stop, stopDispatcher, clearResponseTimer, deliver;
    cbn -[buildRequest] in *;
    (destruct rt; cbn -[buildRequest]; (split; [reflexivity|]);
     unfold enqueue; cbn -[buildRequest];
     (destruct (decide (1%nat = 1%nat)) as [_|Hx]; [|congruence]);
     cbn -[buildRequest];
     (split; [reflexivity|]); (split; [reflexivity|]);
     exists buf; (split; [exact Hbuf|]);
     unfold processNext; cbn -[buildRequest]; rewrite Hbuf; reflexivity).
Qed.

Lemma stop_then_enqueue_witness :
  let w := {| disp := easyInfo (Some 3) (easyCheck init); port := Some 1%nat |} in
  let w1 := (stop w).1 in
  let it := {| id := 2; type := easy_send; channel := Some 4;
               payload := Some 0x40 |} in
  deliver ackFrame w1 = w1
  /\ queue (enqueue easy_send (Some 4) (Some 0x40) (disp w1)) = [it]
  /\ processNextTimers (enqueue easy_send (Some 4) (Some 0x40) (disp w1))
     = S (processNextTimers (disp w))
  /\ exists buf,
       buildRequest it = Some (Ok buf)
       /\ log (processNext (enqueue easy_send (Some 4) (Some 0x40) (disp w1)))
          = log (disp w) ++ [SerialWrite it buf].
Proof.
  apply (stop_then_enqueue
           {| disp := easyInfo (Some 3) (easyCheck init); port := Some 1%nat |}
           ackFrame easy_send (Some 4) (Some 0x40)).
  simpl. lia.
Defined.

Lemma handleFrame_ack_head (p : parsed) (s : state) (a : item)
    (rest : list item) :
  cmd p = Some RSP_EASY_ACK -> queue s = a :: rest -> type a <> easy_check ->
  queue (handleFrame p s) = rest
  /\ log (handleFrame p s) = log s ++ [Resolve a None].
Proof.
  intros Hcmd Hq Hty.
  destruct s as [q rb rt pr st pn rts pw fr lg]. cbn in Hq. subst q.
  destruct a as [i ty ch py]. cbn in Hty.
  unfold handleFrame, clearResponseTimer.
  destruct (decide (cmd p = Some RSP_EASY_CONFIRM)) as [Hx|_];
    [rewrite Hcmd in Hx; discriminate Hx|].
  destruct (decide (cmd p = Some RSP_EASY_ACK)) as [_|Hx]; [|contradiction].
  cbn [responseTimer set_store store queue set_timers].
  match goal with
  | |- context [if ?b then _ else _] => destruct b
  end;
    cbn [responseTimer set_store store queue set_timers];
    destruct rt; destruct ty; try contradiction; cbn; split; reflexivity.
Qed.

(** X15. [start()] throws when the port is not open. Called twice on an
    open port it registers [onSerialData] twice, and the dispatcher then
    handles every delivered frame twice: a single [easy_ack] frame resolves
    the request at the head of the queue and the one behind it. *)
Theorem start_twice (w w1 w2 : world) (high low b : Z) (a1 a2 : item)
    (rest : list item) :
  port w = Some 0%nat -> start w = Some w1 -> start w1 = Some w2 ->
  readBuffer (disp w) = [] ->
  is_byte high -> is_byte low -> is_byte b ->
  queue (disp w) = a1 :: a2 :: rest ->
  type a1 <> easy_check -> type a2 <> easy_check ->
  start {| disp := disp w; port := None |} = None
  /\ port w2 = Some 2%nat
  /\ let s' := disp (deliver (buildFrame RSP_EASY_ACK [high; low; b]) w2) in
     queue s' = rest
     /\ log s' = log (disp w) ++ [Resolve a1 None; Resolve a2 None].
Proof.
  intros Hport H1 H2 Hrb Hh Hl Hb Hq Ht1 Ht2.
  unfold start, onData in *. rewrite Hport in H1. injection H1 as <-.
  cbn in H2. injection H2 as <-. split; [reflexivity|]. split; [reflexivity|].
  unfold deliver. cbn [port disp Nat.iter nat_rect].
  assert (Hc : is_byte RSP_EASY_ACK) by (unfold is_byte, RSP_EASY_ACK; lia).
  assert (Hp : is_buffer [high; low; b]).
  { constructor; [assumption|constructor; [assumption|
      constructor; [assumption|constructor]]]. }
  rewrite (onSerialData_frame (disp w)) by (assumption || (simpl; lia)).
  set (p := {| cmd := Some RSP_EASY_ACK; Protocol.payload := [high; low; b] |}).
  destruct (handleFrame_ack_head p (disp w) a1 (a2 :: rest) eq_refl Hq Ht1)
    as [Hq1 Hl1].
  rewrite (onSerialData_frame (handleFrame p (disp w)))
    by (rewrite ?handleFrame_readBuffer; assumption || (simpl; lia)).
  fold p.
  destruct (handleFrame_ack_head p (handleFrame p (disp w)) a2 rest
              eq_refl Hq1 Ht2) as [Hq2 Hl2].
  cbv zeta. split; [exact Hq2|].
  rewrite Hl2, Hl1, <- app_assoc. reflexivity.
Qed.

Lemma start_twice_witness :
  let s := easySend (Some 2) (Some 0x20) (easyInfo (Some 1) init) in
  let w := {| disp := s; port := Some 0%nat |} in
  let w2 := {| disp := s; port := Some 2%nat |} in
  let a1 := {| id := 0; type := easy_info; channel := Some 1;
               payload := None |} in
  let a2 := {| id := 1; type := easy_send; channel := Some 2;
               payload := Some 0x20 |} in
  start {| disp := disp w; port := None |} = None
  /\ port w2 = Some 2%nat
  /\ let s' := disp (deliver (buildFrame RSP_EASY_ACK [0x00; 0x01; 0x01]) w2) in
     queue s' = []
     /\ log s' = log (disp w) ++ [Resolve a1 None; Resolve a2 None].
Proof.
  cbv zeta.
  apply (start_twice
           {| disp := easySend (Some 2) (Some 0x20) (easyInfo (Some 1) init);
              port := Some 0%nat |}
           {| disp := easySend (Some 2) (Some 0x20) (easyInfo (Some 1) init);
              port := Some 1%nat |});
    try reflexivity; try (unfold is_byte; lia); discriminate.
Defined.

End LifecycleMore.

(** * The REST handlers and the scheduler helpers *)

Section CallersMore.

Lemma channelToBytes_in_range (c : Z) :
  1 <= c <= 15 ->
  exists high low,
    channelToBytes c = Ok (high, low) /\ is_byte high /\ is_byte low
    /\ bytesToChannel high low = c.
Proof.
  intros Hc.
  assert (H : c = 1 \/ c = 2 \/ c = 3 \/ c = 4 \/ c = 5 \/ c = 6 \/ c = 7
              \/ c = 8 \/ c = 9 \/ c = 10 \/ c = 11 \/ c = 12 \/ c = 13
              \/ c = 14 \/ c = 15) by lia.
  repeat (destruct H as [->|H]); try subst c;
    (eexists; eexists; split; [reflexivity|];
     split; [split; [apply Z.leb_le|apply Z.ltb_lt]; reflexivity|];
     split; [split; [apply Z.leb_le|apply Z.ltb_lt]; reflexivity|];
     reflexivity).
Qed.

Lemma parseChannelId_range (parseInt : string -> option Z) (idParam : string)
    (id : Z) :
  Api.parseChannelId parseInt idParam = Some id ->
  parseInt idParam = Some id /\ 1 <= id <= 15.
Proof.
  unfold Api.parseChannelId, Api.CHANNEL_MIN, Api.CHANNEL_MAX.
  destruct (parseInt idParam) as [n|]; [|discriminate].
  destruct (Z.ltb_spec n 1); [discriminate|].
  destruct (Z.gtb_spec n 15); [discriminate|]. simpl.
  intros [= <-]. split; [reflexivity|lia].
Qed.

(** X16. Whatever [parseInt] makes of the id in the URL, when the handler
    of POST /channels/:id/command calls [easySend] the channel is a learned
    one in 1..15 and the payload is the byte of one of the five actions, so
    that the request is one the dispatcher builds a frame for. *)
Theorem postCommand_valid (parseInt : string -> option Z) (idParam : string)
    (action : option string) (st : State.store) (id : Z) (py : option Z) :
  Api.postCommand parseInt idParam action st = Api.CallEasySend id py ->
  In id (StateRead.getLearnedChannels st)
  /\ 1 <= id <= 15
  /\ exists p,
       py = Some p /\ In p [0x20; 0x40; 0x10; 0x44; 0x24]
       /\ exists buf, buildEasySend id p = Ok buf.
Proof.
  unfold Api.postCommand.
  destruct (Api.parseChannelId parseInt idParam) as [n|] eqn:Hid;
    [|discriminate].
  apply parseChannelId_range in Hid as [_ Hr].
  destruct action as [a|]; [|discriminate].
  destruct (bool_decide (a ∈ Api.VALID_ACTIONS)) eqn:Ha; [|discriminate].
  unfold Api.includes.
  destruct (bool_decide (n ∈ StateRead.getLearnedChannels st)) eqn:Hl;
    [|discriminate].
  intros [= <- <-].
  apply bool_decide_eq_true in Ha, Hl.
  split; [apply list_elem_of_In, Hl|]. split; [exact Hr|].
  destruct (channelToBytes_in_range n Hr) as (h & l & Henc & _).
  unfold Api.VALID_ACTIONS in Ha.
  repeat (apply elem_of_cons in Ha as [->|Ha]);
    [..|inversion Ha];
    (eexists; split; [reflexivity|]; split; [simpl; tauto|];
     unfold buildEasySend; rewrite Henc; eauto).
Qed.

Lemma postCommand_valid_witness :
  let parseInt := fun _ : string => Some 7 in
  let st := State.setLearnedChannels [7] State.empty in
  In 7 (StateRead.getLearnedChannels st)
  /\ 1 <= 7 <= 15
  /\ exists p,
       Some 0x44 = Some p /\ In p [0x20; 0x40; 0x10; 0x44; 0x24]
       /\ exists buf, buildEasySend 7 p = Ok buf.
Proof.
  apply (postCommand_valid (fun _ => Some 7) "7" (Some "intermediate"%string)
           (State.setLearnedChannels [7] State.empty) 7 (Some 0x44)).
  vm_compute. reflexivity.
Defined.

(** X17. The handler of GET /channels/:id answers 400 unless the id parses
    to a number in 1..15, and 404 unless that channel is learned; it calls
    [easyInfo] only for a learned channel in 1..15 that has no status in
    the store, a request the dispatcher builds a frame for; and a status it
    answers from the store is the one stored for that channel. *)
Theorem getChannelStatus_valid (parseInt : string -> option Z)
    (idParam : string) (st : State.store) :
  match Api.getChannelStatus parseInt idParam st with
  | Api.Status code =>
      (code = 400%nat /\ Api.parseChannelId parseInt idParam = None)
      \/ (code = 404%nat
          /\ exists id, Api.parseChannelId parseInt idParam = Some id
               /\ ~ In id (StateRead.getLearnedChannels st))
  | Api.Cached status =>
      exists id, parseInt idParam = Some id
        /\ In id (StateRead.getLearnedChannels st)
        /\ StateRead.getChannelStatus id st = Some status
  | Api.CallEasyInfo id =>
      parseInt idParam = Some id
      /\ In id (StateRead.getLearnedChannels st)
      /\ 1 <= id <= 15
      /\ StateRead.getChannelStatus id st = None
      /\ exists buf, buildEasyInfo id = Ok buf
  | Api.CallEasySend _ _ => False
  end.
Proof.
  unfold Api.getChannelStatus.
  destruct (Api.parseChannelId parseInt idParam) as [n|] eqn:Hid;
    [|left; auto].
  pose proof (parseChannelId_range _ _ _ Hid) as [Hp Hr].
  unfold Api.includes.
  destruct (bool_decide (n ∈ StateRead.getLearnedChannels st)) eqn:Hl.
  - apply bool_decide_eq_true, list_elem_of_In in Hl.
    destruct (StateRead.getChannelStatus n st) as [status|] eqn:Hs.
    + exists n. auto.
    + repeat split; try assumption; try lia.
      destruct (channelToBytes_in_range n Hr) as (h & l & Henc & _).
      unfold buildEasyInfo. rewrite Henc. eauto.
  - apply bool_decide_eq_false in Hl. right. split; [reflexivity|].
    exists n. split; [reflexivity|]. intros Hin. apply Hl, list_elem_of_In, Hin.
Qed.

(** X18. The two action tables agree: the actions that the REST layer
    accepts ([VALID_ACTIONS] of api.js) are exactly the keys of
    [ACTION_TO_PAYLOAD] (protocol.js), and different accepted actions have
    different payload bytes. *)
Theorem action_tables_agree (a : string) :
  (In a Api.VALID_ACTIONS <-> is_Some (Tables.ACTION_TO_PAYLOAD a))
  /\ forall a', In a Api.VALID_ACTIONS -> In a' Api.VALID_ACTIONS ->
       Tables.ACTION_TO_PAYLOAD a = Tables.ACTION_TO_PAYLOAD a' -> a = a'.
Proof.
  split.
  - split.
    + unfold Api.VALID_ACTIONS. simpl.
      intros [<-|[<-|[<-|[<-|[<-|[]]]]]]; vm_compute; eauto.
    + unfold Tables.ACTION_TO_PAYLOAD, Api.VALID_ACTIONS.
      repeat (destruct (decide _) as [->|?]; [simpl; tauto|]).
      intros [x Hx]. discriminate Hx.
  - unfold Api.VALID_ACTIONS. simpl.
    intros a' [<-|[<-|[<-|[<-|[<-|[]]]]]] [<-|[<-|[<-|[<-|[<-|[]]]]]] H;
      first [reflexivity | vm_compute in H; discriminate H].
Qed.

(** X19. [clamp] with only a minimum is the later of target and minimum,
    with only a maximum the earlier of target and maximum; with both, and
    the minimum not after the maximum, the result lies between them and
    clamping again changes nothing. When the minimum is after the maximum
    a target before the minimum is moved to the minimum, past the
    maximum. *)
Theorem clamp_bounds (target minDate maxDate : Z) :
  Scheduler.clamp target minDate maxDate false false = target
  /\ Scheduler.clamp target minDate maxDate true false = Z.max target minDate
  /\ Scheduler.clamp target minDate maxDate false true = Z.min target maxDate
  /\ (minDate <= maxDate ->
      let r := Scheduler.clamp target minDate maxDate true true in
      minDate <= r <= maxDate
      /\ Scheduler.clamp r minDate maxDate true true = r)
  /\ (maxDate < minDate -> target < minDate ->
      Scheduler.clamp target minDate maxDate true true = minDate).
Proof.
  unfold Scheduler.clamp. simpl.
  repeat split;
    repeat (match goal with
            | |- context [?a <? ?b] => destruct (Z.ltb_spec a b)
            | |- context [?a >? ?b] => destruct (Z.gtb_spec a b)
            end; try lia);
    intros; cbv zeta;
    repeat (match goal with
            | |- context [?a <? ?b] => destruct (Z.ltb_spec a b)
            | |- context [?a >? ?b] => destruct (Z.gtb_spec a b)
            end; try lia).
Qed.

End CallersMore.

Section ParseTime.

(** X20. [parseTime] returns [null] or the minute of the day, between 0
    and 1439, of an hour in 0..23 and a minute in 0..59. *)
Theorem parseTime_range (hhmm : option (list Z)) (t : Z) :
  Scheduler.parseTime hhmm = Some t ->
  0 <= t <= 1439
  /\ exists h m, 0 <= h <= 23 /\ 0 <= m <= 59 /\ t = h * 60 + m.
Proof.
  unfold Scheduler.parseTime. destruct hhmm as [s|]; [|discriminate].
  cbv zeta.
  destruct (match Scheduler.trim s with [] => _ | _ => _ end) as [[h m]|];
    [|discriminate].
  destruct (Z.ltb_spec h 0); [discriminate|].
  destruct (Z.gtb_spec h 23); [discriminate|].
  destruct (Z.ltb_spec m 0); [discriminate|].
  destruct (Z.gtb_spec m 59); [discriminate|]. simpl.
  intros [= <-]. split; [lia|]. exists h, m. lia.
Qed.

Lemma parseTime_range_witness :
  0 <= 7 * 60 + 5 <= 1439
  /\ exists h m, 0 <= h <= 23 /\ 0 <= m <= 59 /\ 7 * 60 + 5 = h * 60 + m.
Proof.
  apply (parseTime_range (Some [32; 55; 58; 48; 53; 10])).
  vm_compute. reflexivity.
Defined.

Lemma isDigit_not_space (d : Z) :
  0 <= d <= 9 ->
  Scheduler.isDigit (48 + d) = true /\ Scheduler.isWhiteSpace (48 + d) = false.
Proof.
  intros Hd.
  assert (H : d = 0 \/ d = 1 \/ d = 2 \/ d = 3 \/ d = 4 \/ d = 5 \/ d = 6
              \/ d = 7 \/ d = 8 \/ d = 9) by lia.
  repeat (destruct H as [->|H]); try subst d; split; reflexivity.
Qed.

Lemma trimStart_spaces (ws l : list Z) :
  Forall (fun u => Scheduler.isWhiteSpace u = true) ws ->
  Scheduler.trimStart (ws ++ l) = Scheduler.trimStart l.
Proof.
  induction 1 as [|u ws Hu _ IH]; simpl; [reflexivity|].
  rewrite Hu. exact IH.
Qed.

Lemma trimStart_stop (u : Z) (l : list Z) :
  Scheduler.isWhiteSpace u = false -> Scheduler.trimStart (u :: l) = u :: l.
Proof. intros Hu. simpl. rewrite Hu. reflexivity. Qed.

(** [trim] removes the white space around a text that neither starts nor
    ends with white space. *)
Lemma trim_padded (ws1 ws2 mid : list Z) (a z : Z) :
  Forall (fun u => Scheduler.isWhiteSpace u = true) ws1 ->
  Forall (fun u => Scheduler.isWhiteSpace u = true) ws2 ->
  Scheduler.isWhiteSpace a = false -> Scheduler.isWhiteSpace z = false ->
  Scheduler.trim (ws1 ++ (a :: mid ++ [z]) ++ ws2) = a :: mid ++ [z].
Proof.
  intros H1 H2 Ha Hz. unfold Scheduler.trim.
  rewrite (trimStart_spaces ws1 _ H1).
  change ((a :: mid ++ [z]) ++ ws2) with (a :: (mid ++ [z]) ++ ws2).
  rewrite (trimStart_stop a _ Ha).
  change (a :: (mid ++ [z]) ++ ws2) with (((a :: mid) ++ [z]) ++ ws2).
  rewrite reverse_app.
  rewrite (trimStart_spaces (reverse ws2))
    by (apply Forall_reverse; exact H2).
  rewrite reverse_snoc, (trimStart_stop z _ Hz).
  rewrite reverse_cons, reverse_involutive. reflexivity.
Qed.

(** X21. [parseTime] reads back a time of day written as HH:MM, and as
    H:MM when the hour has one digit, whatever white space surrounds it:
    for an hour in 0..23 and a minute in 0..59 the result is
    [hour * 60 + minute]. *)
Theorem parseTime_render (h m : Z) (ws1 ws2 : list Z) :
  0 <= h <= 23 -> 0 <= m <= 59 ->
  Forall (fun u => Scheduler.isWhiteSpace u = true) ws1 ->
  Forall (fun u => Scheduler.isWhiteSpace u = true) ws2 ->
  Scheduler.parseTime (Some (ws1 ++ (twoDigits h ++ [58] ++ twoDigits m) ++ ws2))
  = Some (h * 60 + m)
  /\ (h <= 9 ->
      Scheduler.parseTime (Some (ws1 ++ ([48 + h] ++ [58] ++ twoDigits m) ++ ws2))
      = Some (h * 60 + m)).
Proof.
  intros Hh Hm H1 H2.
  pose proof (Z.div_mod h 10 ltac:(lia)) as Hhd.
  pose proof (Z.mod_pos_bound h 10 ltac:(lia)) as Hhr.
  pose proof (Z.div_mod m 10 ltac:(lia)) as Hmd.
  pose proof (Z.mod_pos_bound m 10 ltac:(lia)) as Hmr.
  destruct (isDigit_not_space (h / 10) ltac:(lia)) as [Dh1 Sh1].
  destruct (isDigit_not_space (h mod 10) ltac:(lia)) as [Dh2 Sh2].
  destruct (isDigit_not_space (m / 10) ltac:(lia)) as [Dm1 Sm1].
  destruct (isDigit_not_space (m mod 10) ltac:(lia)) as [Dm2 Sm2].
  assert (Hfin : forall hh mm, hh = h -> mm = m ->
            (if (hh <? 0) || (hh >? 23) || (mm <? 0) || (mm >? 59)
             then None else Some (hh * 60 + mm)) = Some (h * 60 + m)).
  { intros hh mm -> ->.
    destruct (Z.ltb_spec h 0); [lia|]. destruct (Z.gtb_spec h 23); [lia|].
    destruct (Z.ltb_spec m 0); [lia|]. destruct (Z.gtb_spec m 59); [lia|].
    reflexivity. }
  split.
  - unfold Scheduler.parseTime, twoDigits.
    change ([48 + h / 10; 48 + h mod 10] ++ [58] ++ [48 + m / 10; 48 + m mod 10])
      with (48 + h / 10 :: [48 + h mod 10; 58; 48 + m / 10] ++ [48 + m mod 10]).
    rewrite (trim_padded ws1 ws2 _ _ _ H1 H2 Sh1 Sm2).
    cbn [app]. rewrite Dh1, Dh2, Dm1, Dm2. cbn [andb Z.eqb Pos.eqb].
    apply Hfin; unfold Scheduler.digits2; lia.
  - intros H9.
    destruct (isDigit_not_space h ltac:(lia)) as [Dh Sh].
    unfold Scheduler.parseTime, twoDigits.
    change ([48 + h] ++ [58] ++ [48 + m / 10; 48 + m mod 10])
      with (48 + h :: [58; 48 + m / 10] ++ [48 + m mod 10]).
    rewrite (trim_padded ws1 ws2 _ _ _ H1 H2 Sh Sm2).
    cbn [app]. rewrite Dh, Dm1, Dm2. cbn [andb Z.eqb Pos.eqb].
    apply Hfin; unfold Scheduler.digits1, Scheduler.digits2; lia.
Qed.

Lemma parseTime_render_witness :
  Scheduler.parseTime
    (Some ([32; 9] ++ (twoDigits 7 ++ [58] ++ twoDigits 30) ++ [0x2003]))
  = Some (7 * 60 + 30)
  /\ (7 <= 9 ->
      Scheduler.parseTime
        (Some ([32; 9] ++ ([48 + 7] ++ [58] ++ twoDigits 30) ++ [0x2003]))
      = Some (7 * 60 + 30)).
Proof.
  apply (parseTime_render 7 30 [32; 9] [0x2003]); try lia;
    repeat constructor.
Defined.

End ParseTime.

(** * Further properties of the runs of the dispatcher *)

Section RunsMore.

Lemma channelToBytes_Ok (c : Z) (x : Z * Z) :
  channelToBytes c = Ok x -> 1 <= c <= 15.
Proof.
  unfold channelToBytes.
  destruct (Z.ltb_spec c 1); [discriminate|].
  destruct (Z.gtb_spec c 15); [discriminate|]. lia.
Qed.

Lemma buildFrame_mod (c h l p : Z) :
  is_byte c -> is_byte h -> is_byte l ->
  buildFrame c [h; l; p] = frameOf HEADER c [h; l; p mod 256].
Proof.
  intros Hc Hh Hl.
  assert (Hp : is_byte (p mod 256)) by (apply Z.mod_pos_bound; lia).
  rewrite <- buildFrame_frameOf;
    [|assumption
     |constructor; [assumption|constructor; [assumption|
        constructor; [assumption|constructor]]]
     |simpl; lia].
  unfold buildFrame, Buffer_from. simpl map.
  rewrite Z.mod_mod by lia. reflexivity.
Qed.

(** The frame of a request that builds. *)
Lemma buildRequest_frame (it : item) (buf : list Z) :
  buildRequest it = Some (Ok buf) ->
  exists pl,
    buf = frameOf HEADER (commandOf (type it)) pl
    /\ is_buffer pl /\ length pl = payloadLength (type it).
Proof.
  destruct it as [i t c p]. unfold buildRequest. cbn.
  destruct t.
  - intros [= <-]. exists []. repeat split. constructor.
  - destruct c as [c|]; [|discriminate]. unfold buildEasyInfo.
    destruct (channelToBytes c) as [[h l]|e] eqn:Henc; [|discriminate].
    intros [= <-].
    destruct (channelToBytes_in_range c (channelToBytes_Ok c _ Henc))
      as (h' & l' & Henc' & Hh & Hl & _).
    rewrite Henc in Henc'. injection Henc' as <- <-.
    exists [h; l]. split.
    + apply buildFrame_frameOf;
        [unfold is_byte, CMD_EASY_INFO; lia
        |constructor; [assumption|constructor; [assumption|constructor]]
        |simpl; lia].
    + split; [|reflexivity].
      constructor; [assumption|constructor; [assumption|constructor]].
  - destruct c as [c|]; [|discriminate]. destruct p as [p|]; [|discriminate].
    unfold buildEasySend.
    destruct (channelToBytes c) as [[h l]|e] eqn:Henc; [|discriminate].
    intros [= <-].
    destruct (channelToBytes_in_range c (channelToBytes_Ok c _ Henc))
      as (h' & l' & Henc' & Hh & Hl & _).
    rewrite Henc in Henc'. injection Henc' as <- <-.
    exists [h; l; p mod 256]. split.
    + apply buildFrame_mod; [unfold is_byte, CMD_EASY_SEND; lia| |];
        assumption.
    + split; [|reflexivity].
      constructor; [assumption|constructor; [assumption|
        constructor; [apply Z.mod_pos_bound; lia|constructor]]].
Qed.

(** X22. In every run, every buffer the dispatcher hands to
    [serial.write] is a well-formed frame of the request it was written
    for: bytes only, [0xAA] first, and [parseFrame] reads it back as the
    command of the request's type ([0x4A] check, [0x4E] info, [0x4C] send)
    with a payload of 0, 2 or 3 bytes. *)
Theorem written_frames_wellformed (tr : list event) (s : state) (it : item)
    (buf : list Z) :
  run init tr = Some s -> In (SerialWrite it buf) (log s) ->
  is_buffer buf
  /\ buf !! 0%nat = Some HEADER
  /\ exists pl,
       parseFrame buf
       = Some {| cmd := Some (commandOf (type it)); Protocol.payload := pl |}
       /\ length pl = payloadLength (type it).
Proof.
  intros Hrun Hin.
  apply (writesBuilt_run tr s Hrun) in Hin.
  destruct (buildRequest_frame it buf Hin) as (pl & -> & Hpl & Hlen).
  split.
  - apply frameOf_buffer; [unfold is_byte, HEADER; lia| |exact Hpl|].
    + destruct (type it);
        unfold is_byte, commandOf, CMD_EASY_CHECK, CMD_EASY_INFO,
          CMD_EASY_SEND; lia.
    + rewrite Hlen. destruct (type it); simpl; lia.
  - split; [reflexivity|]. exists pl. split; [apply parseFrame_frameOf|exact Hlen].
Qed.

Lemma written_frames_wellformed_witness :
  exists s it buf,
    run init [Enqueue easy_send (Some 10) (Some 0x44); TimerProcessNext] = Some s
    /\ In (SerialWrite it buf) (log s)
    /\ is_buffer buf
    /\ buf !! 0%nat = Some HEADER
    /\ exists pl,
         parseFrame buf
         = Some {| cmd := Some (commandOf (type it)); Protocol.payload := pl |}
         /\ length pl = payloadLength (type it).
Proof.
  destruct (run init [Enqueue easy_send (Some 10) (Some 0x44); TimerProcessNext])
    as [s|] eqn:Hrun; [|vm_compute in Hrun; discriminate Hrun].
  assert (Hin : exists it buf, In (SerialWrite it buf) (log s)).
  { vm_compute in Hrun. injection Hrun as <-.
    eexists; eexists; left; reflexivity. }
  destruct Hin as (it & buf & Hin).
  exists s, it, buf. split; [reflexivity|]. split; [exact Hin|].
  exact (written_frames_wellformed _ s it buf Hrun Hin).
Defined.

Lemma fifo_when_failures_are_timely_witness :
  exists s,
    run init timelyRun = Some s
    /\ timelyFailures init timelyRun
    /\ (exists a, In (Reject a WriteFailed) (log s))
    /\ settledIds (log s) = [0; 1; 2]%nat
    /\ StronglySorted lt (settledIds (log s))
    /\ settleOrder [] (log s) = settledIds (log s).
Proof.
  destruct (run init timelyRun) as [s|] eqn:Hrun;
    [|vm_compute in Hrun; discriminate Hrun].
  assert (Htimely : timelyFailures init timelyRun).
  { vm_compute. tauto. }
  exists s. split; [reflexivity|]. split; [exact Htimely|].
  split; [|split].
  - vm_compute in Hrun. injection Hrun as <-.
    eexists. right. left. reflexivity.
  - vm_compute in Hrun. injection Hrun as <-. reflexivity.
  - exact (fifo_when_failures_are_timely timelyRun s Htimely Hrun).
Defined.

End RunsMore.

Section LogMore.

(** What a step may add to the log. *)
Lemma step_log_keeps (Q : effect -> Prop) :
  (forall it buf, buildRequest it = Some (Ok buf) -> Q (SerialWrite it buf)) ->
  (forall it e, Q (Reject it e)) ->
  (forall it high low, type it = easy_check ->
     Q (Resolve it (Some (bitmapToChannels high low)))) ->
  (forall it, type it <> easy_check -> Q (Resolve it None)) ->
  forall s e s', Forall Q (log s) -> step s e = Some s' -> Forall Q (log s').
Proof.
  intros Hw Hr Hc Ha s e s' Hs.
  assert (Hsnoc : forall x, Q x -> Forall Q (log s ++ [x])).
  { intros x Hx. apply Forall_app. split; [exact Hs|]. repeat constructor.
    exact Hx. }
  destruct e as [t c p| |k ok|h|d]; simpl.
  - intros [= <-]. unfold enqueue. repeat case_match; exact Hs.
  - destruct (processNextTimers s); [discriminate|]. intros [= <-].
    unfold processNext, failHead. cbn -[buildRequest].
    destruct (processing s); [exact Hs|].
    destruct (queue s) as [|it q]; [exact Hs|].
    destruct (buildRequest it) as [[buf|e]|] eqn:Hb; cbn; auto.
  - destruct (pendingWrites s !! k); [|discriminate]. intros [= <-].
    destruct ok; cbn; auto.
  - destruct (lookupTimer h (responseTimers s)); [|discriminate].
    intros [= <-]. unfold onResponseTimeout. cbn.
    destruct (queue s) as [|a q]; [exact Hs|].
    destruct (decide _); cbn; auto.
  - destruct (forallb is_byteb d); [|discriminate]. intros [= <-].
    apply (onSerialData_keeps (fun s => Forall Q (log s))); [auto| |exact Hs].
    clear -Hc Ha. intros p s H.
    assert (Hsnoc : forall x, Q x -> Forall Q (log s ++ [x])).
    { intros x Hx. apply Forall_app. split; [exact H|]. repeat constructor.
      exact Hx. }
    revert H Hsnoc.
    handleFrame_cases p s; intros H Hsnoc; try exact H;
      apply Hsnoc; first [apply Hc; reflexivity | apply Ha; discriminate].
Qed.

(** X23. In every run, a request made by [easyCheck] is only ever resolved
    with a list of channels, strictly ascending and all in 1..15, and a
    request made by [easyInfo] or [easySend] only with [undefined]. *)
Theorem resolved_values (tr : list event) (s : state) (it : item)
    (v : option (list Z)) :
  run init tr = Some s -> In (Resolve it v) (log s) ->
  match type it with
  | easy_check =>
      exists l, v = Some l /\ StronglySorted Z.lt l
        /\ Forall (fun c => 1 <= c <= 15) l
  | _ => v = None
  end.
Proof.
  intros Hrun Hin.
  assert (H : Forall (resolvedWell) (log s)).
  { revert Hrun.
    apply (run_keeps (fun s => Forall resolvedWell (log s)));
      [|constructor].
    apply step_log_keeps; unfold resolvedWell; try (intros; exact I).
    - intros a high low ->. exists (bitmapToChannels high low).
      split; [reflexivity|]. unfold bitmapToChannels.
      split; [apply channelOfBit_sorted|].
      apply Forall_forall. intros c Hc%list_elem_of_In.
      apply channelOfBit_In in Hc. simpl in Hc. lia.
    - intros a Ha. destruct (type a); [contradiction|reflexivity|reflexivity]. }
  rewrite Forall_forall in H. apply (H _ (proj2 (list_elem_of_In _ _) Hin)).
Qed.

Lemma resolved_values_witness :
  exists s it v,
    run init [Enqueue easy_check None None;
              SerialData [0xAA; 0x04; 0x4B; 0x00; 0x05; 0x02]] = Some s
    /\ In (Resolve it v) (log s)
    /\ match type it with
       | easy_check =>
           exists l, v = Some l /\ StronglySorted Z.lt l
             /\ Forall (fun c => 1 <= c <= 15) l
       | _ => v = None
       end.
Proof.
  destruct (run init [Enqueue easy_check None None;
                      SerialData [0xAA; 0x04; 0x4B; 0x00; 0x05; 0x02]])
    as [s|] eqn:Hrun; [|vm_compute in Hrun; discriminate Hrun].
  assert (Hin : exists it v, In (Resolve it v) (log s)).
  { vm_compute in Hrun. injection Hrun as <-.
    eexists; eexists; left; reflexivity. }
  destruct Hin as (it & v & Hin).
  exists s, it, v. split; [reflexivity|]. split; [exact Hin|].
  exact (resolved_values _ s it v Hrun Hin).
Defined.

Lemma wasWritten_snoc (it : item) (l : list effect) (x : effect) :
  wasWritten it l -> wasWritten it (l ++ [x]).
Proof. intros [buf H]. exists buf. apply in_or_app. left. exact H. Qed.

Lemma lateRejects_snoc (l : list effect) (x : effect) :
  lateRejects l ->
  match x with
  | Reject it e => e = ResponseTimeout \/ e = WriteFailed -> wasWritten it l
  | _ => True
  end ->
  lateRejects (l ++ [x]).
Proof.
  intros Hl Hx l1 it e l2 Heq Hlate.
  destruct l2 as [|z l2 _] using rev_ind.
  - apply app_inj_tail in Heq as [-> ->]. apply Hx, Hlate.
  - change (l1 ++ Reject it e :: l2 ++ [z])
      with (l1 ++ (Reject it e :: l2) ++ [z]) in Heq.
    rewrite app_assoc in Heq. apply app_inj_tail in Heq as [-> _].
    eapply Hl; [reflexivity|exact Hlate].
Qed.

Lemma writtenInv_grow (s s' : state) (x : effect) :
  log s' = log s ++ [x] ->
  match x with
  | Reject it e => e = ResponseTimeout \/ e = WriteFailed -> wasWritten it (log s)
  | _ => True
  end ->
  Forall (fun it => wasWritten it (log s')) (pendingWrites s') ->
  Forall (fun e => wasWritten e.2 (log s')) (responseTimers s') ->
  writtenInv s -> writtenInv s'.
Proof.
  intros Hl Hx Hw Ht (Hlate & _ & _). unfold writtenInv. rewrite Hl.
  split; [apply lateRejects_snoc; assumption|]. rewrite <- Hl. auto.
Qed.

Lemma Forall_written_snoc {A} (f : A -> item) (l : list A) (lg : list effect)
    (x : effect) :
  Forall (fun a => wasWritten (f a) lg) l ->
  Forall (fun a => wasWritten (f a) (lg ++ [x])) l.
Proof.
  intros H. eapply Forall_impl; [exact H|]. simpl. intros a.
  apply wasWritten_snoc.
Qed.

Lemma writtenInv_handleFrame (p : parsed) (s : state) :
  writtenInv s -> writtenInv (handleFrame p s).
Proof.
  intros Hs. pose proof Hs as (Hlate & Hw & Ht).
  destruct (handleFrame_cases_spec p s) as (Hpw & Hcase).
  assert (Hsub : Forall (fun e => wasWritten e.2 (log s)) (clearedTimers s)).
  { unfold clearedTimers. destruct (responseTimer s); [|exact Ht].
    apply clearTimeout_Forall, Ht. }
  destruct Hcase as [(Hrt & _ & Hl & _)|(Hrt & _ & [(Hl & _)|(a & v & _ & Hl)])].
  - unfold writtenInv. rewrite Hl, Hpw, Hrt. exact Hs.
  - unfold writtenInv. rewrite Hl, Hpw, Hrt. auto.
  - eapply writtenInv_grow; [exact Hl|exact I| | |exact Hs].
    + rewrite Hl, Hpw. apply (Forall_written_snoc (fun x => x)), Hw.
    + rewrite Hl, Hrt. apply (Forall_written_snoc snd), Hsub.
Qed.

Lemma writtenInv_step (s : state) (e : event) (s' : state) :
  writtenInv s -> step s e = Some s' -> writtenInv s'.
Proof.
  intros Hs. pose proof Hs as (Hlate & Hw & Ht).
  destruct e as [t c p| |k ok|h|d]; simpl.
  - intros [= <-]. unfold writtenInv, enqueue. repeat case_match; exact Hs.
  - destruct (processNextTimers s); [discriminate|]. intros [= <-].
    unfold processNext, failHead. cbn -[buildRequest].
    destruct (processing s); [exact Hs|].
    destruct (queue s) as [|it q]; [exact Hs|].
    destruct (buildRequest it) as [[buf|e]|] eqn:Hb; cbn.
    + eapply (writtenInv_grow s); [reflexivity|exact I| | |exact Hs]; cbn.
      * apply Forall_app. split;
          [apply (Forall_written_snoc (fun x => x)), Hw|].
        repeat constructor. exists buf. apply in_or_app. right. left.
        reflexivity.
      * apply (Forall_written_snoc snd), Ht.
    + eapply (writtenInv_grow s); [reflexivity| | | |exact Hs]; cbn.
      * destruct e; intros [?|?]; try discriminate.
        all: exfalso; clear -Hb; destruct it as [i [] [c|] [p|]];
          unfold buildRequest, buildEasyInfo, buildEasySend in Hb; cbn in Hb;
          try discriminate;
          destruct (channelToBytes c) as [[]|[]] eqn:Hc; try discriminate;
          unfold channelToBytes in Hc; repeat case_match; discriminate.
      * apply (Forall_written_snoc (fun x => x)), Hw.
      * apply (Forall_written_snoc snd), Ht.
    + eapply (writtenInv_grow s); [reflexivity| | | |exact Hs]; cbn.
      * intros [?|?]; discriminate.
      * apply (Forall_written_snoc (fun x => x)), Hw.
      * apply (Forall_written_snoc snd), Ht.
  - destruct (pendingWrites s !! k) as [it|] eqn:Hk; [|discriminate].
    intros [= <-].
    assert (Hit : wasWritten it (log s)).
    { rewrite Forall_forall in Hw. apply Hw. eapply list_elem_of_lookup_2, Hk. }
    destruct ok; cbn.
    + unfold writtenInv. cbn. split; [exact Hlate|]. split.
      * apply Forall_delete, Hw.
      * apply Forall_app. split; [exact Ht|]. repeat constructor. exact Hit.
    + eapply (writtenInv_grow s); [reflexivity| | | |exact Hs]; cbn.
      * intros _. exact Hit.
      * apply (Forall_written_snoc (fun x => x)), Forall_delete, Hw.
      * apply (Forall_written_snoc snd), Ht.
  - destruct (lookupTimer h (responseTimers s)) as [it|] eqn:Hh; [|discriminate].
    intros [= <-]. apply lookupTimer_elem in Hh.
    assert (Hit : wasWritten it (log s)).
    { rewrite Forall_forall in Ht. exact (Ht (h, it) Hh). }
    unfold onResponseTimeout. cbn.
    assert (Hsame : writtenInv
              (set_timers None (clearTimeout h (responseTimers s)) s)).
    { unfold writtenInv. cbn. split; [exact Hlate|]. split; [exact Hw|].
      apply clearTimeout_Forall, Ht. }
    destruct (queue s) as [|a q]; [exact Hsame|].
    destruct (decide _); cbn; [|exact Hsame].
    eapply (writtenInv_grow s); [reflexivity| | | |exact Hs]; cbn.
    + intros _. exact Hit.
    + apply (Forall_written_snoc (fun x => x)), Hw.
    + apply (Forall_written_snoc snd), clearTimeout_Forall, Ht.
  - destruct (forallb is_byteb d); [|discriminate]. intros [= <-].
    apply onSerialData_keeps; auto using writtenInv_handleFrame.
Qed.

(** X24. In every run, a request is rejected with 'Response timeout' or
    with the error of a failed write only after its frame has been handed
    to [serial.write]: a request that was never written is never timed
    out. *)
Theorem late_rejections_follow_write (tr : list event) (s : state)
    (l1 l2 : list effect) (it : item) (e : error) :
  run init tr = Some s ->
  log s = l1 ++ Reject it e :: l2 ->
  e = ResponseTimeout \/ e = WriteFailed ->
  exists buf, In (SerialWrite it buf) l1.
Proof.
  intros Hrun Hlog He.
  assert (H : writtenInv s).
  { revert Hrun. apply (run_keeps writtenInv writtenInv_step).
    split; [|split; constructor].
    intros [|? ?] ? ? ? Heq; discriminate Heq. }
  destruct H as (Hlate & _). exact (Hlate l1 it e l2 Hlog He).
Qed.

Lemma late_rejections_follow_write_witness :
  exists s l1 l2 it,
    run init timeoutRun = Some s
    /\ log s = l1 ++ Reject it ResponseTimeout :: l2
    /\ exists buf, In (SerialWrite it buf) l1.
Proof.
  destruct (run init timeoutRun) as [s|] eqn:Hrun;
    [|vm_compute in Hrun; discriminate Hrun].
  assert (Hlog : exists a fa b fb,
             log s = [SerialWrite a fa]
                     ++ Reject a ResponseTimeout :: [SerialWrite b fb]).
  { vm_compute in Hrun. injection Hrun as <-. do 4 eexists. reflexivity. }
  destruct Hlog as (a & fa & b & fb & Hlog).
  exists s, [SerialWrite a fa], [SerialWrite b fb], a.
  split; [reflexivity|]. split; [exact Hlog|].
  exact (late_rejections_follow_write timeoutRun s _ _ a ResponseTimeout
           Hrun Hlog (or_introl eq_refl)).
Defined.

End LogMore.
